(** * zNS-metadata: a shallow embedding of [zns-metadata.py]

    The script collects the zNS domain records from a paginated GraphQL
    source, checks them for duplicated names, strips the [ipfs://] scheme
    from the metadata pointers, resolves every pointer against a gateway,
    buckets the records by domain group and flattens every record to one
    level of dotted keys.

    Python values are modelled as follows: a [str] is a [string] (the
    UTF-8 bytes of the text: a search for an ASCII pattern and the
    comparison of two strings come out the same on the bytes as on the
    code points), an [int] a [Z] or a [nat], a JSON document a [json]
    tree, a [dict] whose iteration order matters an association list kept
    in insertion order, the [set] of seen names a [gset string], a [list]
    of dicts that is mutated through references a list addressed by
    position.  An exception is a value of [PyErr] carried by the [Exc]
    monad. *)

From stdpp Require Import gmap strings list pretty sorting.
From Stdlib Require Import Ascii.

Set Warnings "-register-all".
Local Open Scope Z_scope.

(** ** Values *)

(** What [json.load] and [response.json()] produce.  Numbers are kept as
    integers; none of the functions below computes with them. *)
Inductive json : Type :=
  | JNull
  | JBool (b : bool)
  | JNum (n : Z)
  | JStr (s : string)
  | JList (l : list json)
  | JDict (d : list (string * json)).

(** A Python dict with string keys, in insertion order. *)
Abbreviation Dict := (list (string * json)).

(** The exceptions the script can meet. *)
Inductive PyErr : Type :=
  | TypeError
  | KeyError (key : string)
  | QueryFailed (status_code : Z) (cursor : Z)
  | ConnectError
  | JSONDecodeError
  | DuplicatedEntries (names : list string).

Inductive Exc (A : Type) : Type :=
  | Ok (a : A)
  | Raise (e : PyErr).
Arguments Ok {A} a.
Arguments Raise {A} e.

Definition bind {A B : Type} (m : Exc A) (k : A → Exc B) : Exc B :=
  match m with
  | Ok a => k a
  | Raise e => Raise e
  end.

Notation "x ←! m ; k" := (bind m (λ x, k))
  (at level 20, m at level 100, k at level 200, right associativity,
   format "x  ←!  m ;  '/' k").

(** A loop [for x in xs: st = body(st, x)] whose body may raise. *)
Fixpoint for_each {St A : Type} (body : St → A → Exc St) (xs : list A) (st : St)
  : Exc St :=
  match xs with
  | [] => Ok st
  | x :: xs' => st' ←! body st x; for_each body xs' st'
  end.

(** ** Dicts *)

(** [d[key]], [None] standing for the [KeyError]. *)
Fixpoint dict_get (d : Dict) (key : string) : option json :=
  match d with
  | [] => None
  | (k, v) :: d' => if String.eqb k key then Some v else dict_get d' key
  end.

(** [d[key] = value]: an existing key keeps its position and takes the new
    value, a new key goes to the end. *)
Fixpoint dict_set (d : Dict) (key : string) (value : json) : Dict :=
  match d with
  | [] => [(key, value)]
  | (k, v) :: d' =>
      if String.eqb k key then (k, value) :: d' else (k, v) :: dict_set d' key value
  end.

(** [d.update(other)]. *)
Definition dict_update (d other : Dict) : Dict :=
  fold_left (λ acc kv, dict_set acc kv.1 kv.2) other d.

(** ** Records *)

(** One entry of the GraphQL answer: the dict with the keys [id],
    [indexId], [name] and [metadata].  The [metadata] field holds the IPFS
    path first, the bare hash after [format_ipfs_hash_in_dicts] and the
    resolved document after [get_metadata]. *)
Record Domain : Type := mkDomain {
  id : string;
  indexId : Z;
  name : string;
  metadata : json
}.

(** [entry['metadata'] = value] *)
Definition set_metadata (entry : Domain) (value : json) : Domain :=
  {| id := id entry; indexId := indexId entry; name := name entry; metadata := value |}.

(** ** IntegrityValidator: [check_for_duplicated_entries] *)

(** The body of the loop over [names]; the state is [(seen, duplicated)]. *)
Definition dup_step (st : gset string * list string) (name : string)
  : gset string * list string :=
  if decide (name ∉ st.1) then ({[name]} ∪ st.1, st.2)
  else (st.1, st.2 ++ [name]).

Definition check_for_duplicated_entries (data : list Domain) : list string :=
  let names := name <$> data in
  (fold_left dup_step names (∅, [])).2.

(** ** IdentifierNormalizer: [format_ipfs_hash_in_dicts] *)

(** [re.sub(re.compile(re.escape(pattern)), '', s)] for a non-empty
    [pattern]: scan from the left; where the pattern matches, drop the
    match and go on behind it, otherwise keep the character.  [skip]
    counts the characters of the current match still to drop. *)
Fixpoint re_sub_go (pattern : string) (skip : nat) (s : string) : string :=
  match s with
  | EmptyString => EmptyString
  | String c s' =>
      match skip with
      | S k => re_sub_go pattern k s'
      | O =>
          if String.prefix pattern s
          then re_sub_go pattern (Nat.pred (String.length pattern)) s'
          else String c (re_sub_go pattern O s')
      end
  end.

Definition re_sub_literal (pattern s : string) : string :=
  match pattern with
  | EmptyString => s
  | _ => re_sub_go pattern O s
  end.

Definition IPFS_SCHEME : string := "ipfs://".

(** The body of [for entry in data]; the state is the list as mutated so
    far together with [not_match]. *)
Definition format_step (st : list Domain * list Domain) (entry : Domain)
  : Exc (list Domain * list Domain) :=
  match metadata entry with
  | JStr path =>
      let hash := re_sub_literal IPFS_SCHEME path in
      if String.eqb hash path then Ok (st.1 ++ [entry], st.2 ++ [entry])
      else Ok (st.1 ++ [set_metadata entry (JStr hash)], st.2)
  | _ => Raise TypeError
  end.

Definition format_ipfs_hash_in_dicts (data : list Domain)
  : Exc (list Domain * list Domain) :=
  for_each format_step data ([], []).

(** ** PaginatedCollector: [get_all_domains] *)

(** The answer of [requests.post] to one page query, as far as the loop
    reads it: the status code and [request.json()['data']['domains']]. *)
Record GraphResponse : Type := mkGraphResponse {
  status_code : Z;
  domains : list Domain
}.

(** The [while True] loop.  [post lastId] is the answer to the query with
    [indexId_gt: lastId]; [fuel] bounds the number of pages asked for and
    [None] means that the bound was reached before the loop ended.  The
    progress bar, the only use of [maxId], is not modelled. *)
Fixpoint get_all_domains_loop (post : Z → GraphResponse) (fuel : nat)
    (lastId : Z) (results : list Domain) : option (Exc (list Domain)) :=
  match fuel with
  | O => None
  | S fuel' =>
      let request := post lastId in
      if decide (status_code request = 200) then
        let lastId' := lastId + 1000 in
        if decide (length (domains request) ≤ 0)%nat then Some (Ok results)
        else get_all_domains_loop post fuel' lastId' (results ++ domains request)
      else Some (Raise (QueryFailed (status_code request) lastId))
  end.

Definition get_all_domains (post : Z → GraphResponse) (fuel : nat)
  : option (Exc (list Domain)) :=
  get_all_domains_loop post fuel 0 [].

(** The source the query text describes: of the stored domains, kept in
    ascending [indexId] order, the first 1000 whose [indexId] is greater
    than the cursor ([first: 1000, where: {indexId_gt: lastId},
    orderBy: indexId, orderDirection: asc]). *)
Definition graph_source (stored : list Domain) (lastId : Z) : GraphResponse :=
  {| status_code := 200;
     domains := take 1000 (filter (λ d, lastId < indexId d) stored) |}.

(** ** FetchPipeline: [get_metadata] and [get_all_metadata] *)

(** An [httpx.Response]: its status code and what [response.json()]
    gives, [None] when the body does not decode. *)
Record Response : Type := mkResponse {
  resp_status : Z;
  resp_json : option json
}.

(** What awaiting [session.post] ends in. *)
Inductive PostOutcome : Type :=
  | Responded (response : Response)
  | ConnectionFailed.

(** [get_metadata(session, data, pbar)] on the dict [data]; the gateway
    is asked with [params = {'arg': data['metadata']}].  The function
    returns the very dict it was given, with the field overwritten. *)
Definition get_metadata (session_post : json → PostOutcome) (data : Domain)
  : Exc Domain :=
  match session_post (metadata data) with
  | ConnectionFailed => Raise ConnectError
  | Responded response =>
      match resp_json response with
      | None => Raise JSONDecodeError
      | Some document => Ok (set_metadata data document)
      end
  end.

(** Modelled from the spec: [aiometer.run_all], the library function that
    schedules the tasks, is not under src/.  In the spec's words a task
    owns its own record until it completes and writes its resolved value
    back, a single failed fetch ends the whole batch, and the output
    sequence is in the order of the input whichever requests complete
    first.  The state of a run: the dicts of [data], which the tasks
    mutate in place, the results gathered so far, keyed by task index,
    and the progress counter. *)
Record PipelineState : Type := mkPipelineState {
  entries : list Domain;
  gathered : gmap nat Domain;
  pbar : nat
}.

(** Task [index] is [partial(get_metadata, session, entry, pbar)] for the
    [index]-th entry of [data]; [gateway index] answers its request.  The
    step is the completion of that task. *)
Definition complete_task (gateway : nat → json → PostOutcome)
    (st : PipelineState) (index : nat) : Exc PipelineState :=
  match entries st !! index with
  | None => Ok st
  | Some entry =>
      result ←! get_metadata (gateway index) entry;
      Ok {| entries := <[index := result]> (entries st);
            gathered := <[index := result]> (gathered st);
            pbar := S (pbar st) |}
  end.

(** Modelled from the spec: what [aiometer.run_all] hands back, the
    gathered results as a list in task index order (the spec's ordering
    guarantee; the function itself is not under src/). *)
Definition list_from_indexed_dict (results : gmap nat Domain) (n : nat)
  : list Domain :=
  omap (λ index, results !! index) (seq 0 n).

(** [get_all_metadata(data, maxId)].  From the source: one task per entry
    of [data], in the order of [data], each the call of [get_metadata] on
    that entry, and the list that [aiometer.run_all] hands back returned
    as it is.  From the model of [aiometer.run_all]: the tasks run
    concurrently, [order] lists the task indices in the order in which
    the tasks complete, and the first task that raises ends the run with
    its exception. *)
Definition get_all_metadata (gateway : nat → json → PostOutcome)
    (data : list Domain) (order : list nat) : Exc (list Domain) :=
  st ←! for_each (complete_task gateway) order
          {| entries := data; gathered := ∅; pbar := O |};
  Ok (list_from_indexed_dict (gathered st) (length data)).

(** What the gateway's answer resolves to, whatever its status code. *)
Definition document_of (outcome : PostOutcome) : option json :=
  match outcome with
  | Responded response => resp_json response
  | ConnectionFailed => None
  end.

(** The limits handed to [aiometer.run_all], and the module constant. *)
Definition INFURA_MAX_REQUESTS_PER_SEC : Z := 10.
Definition max_per_second : Z := 50.
Definition max_at_once : Z := 100.

(** ** GroupPartitioner: [separate_industries_into_files] *)

(** [$]: the end of the string, or just before a newline that ends it. *)
Definition at_dollar (s : string) : bool :=
  match s with
  | EmptyString => true
  | String c EmptyString => Ascii.eqb c "010"
  | _ => false
  end.

(** [[^.]+$] matched at the start of [s]. *)
Fixpoint match_segment (s : string) : bool :=
  match s with
  | EmptyString => false
  | String c s' => negb (Ascii.eqb c ".") && (at_dollar s' || match_segment s')
  end.

(** [re.escape(domain_group) + r'\.[^.]+$'] matched at the start of [s]. *)
Fixpoint match_group_here (domain_group s : string) : bool :=
  match domain_group, s with
  | EmptyString, String c s' => Ascii.eqb c "." && match_segment s'
  | EmptyString, EmptyString => false
  | String a g', String b s' => Ascii.eqb a b && match_group_here g' s'
  | String _ _, EmptyString => false
  end.

(** [re.search(pattern, s)]: the match may start at any position. *)
Fixpoint re_search_group (domain_group s : string) : bool :=
  match_group_here domain_group s ||
  match s with
  | EmptyString => false
  | String _ s' => re_search_group domain_group s'
  end.

(** [{'tokenId': entry['id'], 'domain': entry['name'],
      'metadata': entry['metadata']}] *)
Definition group_entry (entry : Domain) : Dict :=
  [("tokenId", JStr (id entry)); ("domain", JStr (name entry));
   ("metadata", metadata entry)].

(** The files written, as pairs of file name and content, one per group in
    the order of [domain_groups]. *)
Definition separate_industries_into_files (data : list Domain)
    (domain_groups : list string) : list (string * list Dict) :=
  (λ domain_group,
     (domain_group,
      group_entry <$> filter (λ entry, re_search_group domain_group (name entry) = true) data))
  <$> domain_groups.

(** ** Flattener: [flatten] *)

(** What one [(key, value)] item of [input_dict] does to [output_dict].
    [items] is the loop of the recursive call [flatten(value, separator,
    pre)], started on an empty dict; [elements] is the loop over
    [enumerate(value, start=1)]. *)
Fixpoint flatten_item (separator prefix key : string) (value : json)
    (output_dict : Dict) {struct value} : Dict :=
  match value with
  | JDict ((_ :: _) as d) =>
      let deeper :=
        (fix items (d : Dict) (out : Dict) {struct d} : Dict :=
           match d with
           | [] => out
           | (key2, val2) :: d' =>
               items d' (flatten_item separator (prefix +:+ key +:+ separator) key2 val2 out)
           end) d [] in
      dict_update output_dict deeper
  | JList ((_ :: _) as l) =>
      (fix elements (index : nat) (l : list json) (out : Dict) {struct l} : Dict :=
         match l with
         | [] => out
         | sublist :: l' =>
             elements (S index) l'
               match sublist with
               | JDict ((_ :: _) as d) =>
                   let deeper :=
                     (fix items (d : Dict) (acc : Dict) {struct d} : Dict :=
                        match d with
                        | [] => acc
                        | (key2, val2) :: d' =>
                            items d'
                              (flatten_item separator
                                 (prefix +:+ key +:+ separator +:+ pretty index +:+ separator)
                                 key2 val2 acc)
                        end) d [] in
                   dict_update out deeper
               | _ => dict_set out (prefix +:+ key +:+ separator +:+ pretty index) value
               end
         end) 1%nat l output_dict
  | _ => dict_set output_dict (prefix +:+ key) value
  end.

(** [flatten(input_dict, separator, prefix)] *)
Definition flatten (input_dict : Dict) (separator prefix : string) : Dict :=
  fold_left (λ out kv, flatten_item separator prefix kv.1 kv.2 out) input_dict [].

(** ** The attribute pre-pass of [main] *)

(** [v[key]] on a JSON value. *)
Definition subscript (v : json) (key : string) : Exc json :=
  match v with
  | JDict d =>
      match dict_get d key with
      | Some x => Ok x
      | None => Raise (KeyError key)
      end
  | _ => Raise TypeError
  end.

(** A list comprehension whose element expression may raise. *)
Fixpoint map_exc {A B : Type} (f : A → Exc B) (l : list A) : Exc (list B) :=
  match l with
  | [] => Ok []
  | x :: l' => y ←! f x; ys ←! map_exc f l'; Ok (y :: ys)
  end.

(** What a [for] loop over a JSON value runs through: the elements of a
    list, the keys of a dict, the characters of a string; nothing else
    can be iterated. *)
Definition iterate (v : json) : Exc (list json) :=
  match v with
  | JList l => Ok l
  | JDict d => Ok (JStr <$> d.*1)
  | JStr s => Ok ((λ c, JStr (String c EmptyString)) <$> String.list_ascii_of_string s)
  | _ => Raise TypeError
  end.

(** [d['trait_type']], the sort key and later a dict key.  The model
    covers trait names that are strings.  A trait name of another type
    has no place as a key of a [Dict]; the script ends in an exception on
    it as well, when it compares it with a string or, at the latest, in
    [flatten] at [prefix+key], and the model raises its [TypeError] here
    already. *)
Definition trait_type_of (d : json) : Exc string :=
  v ←! subscript d "trait_type";
  match v with
  | JStr s => Ok s
  | _ => Raise TypeError
  end.

(** [sorted(l, key=...)] on the elements paired with their keys: a stable
    sort, strings compared character by character. *)
Fixpoint insert_by_key {A : Type} (x : string * A) (l : list (string * A))
  : list (string * A) :=
  match l with
  | [] => [x]
  | y :: l' => if String.leb x.1 y.1 then x :: l else y :: insert_by_key x l'
  end.

Definition sorted_by_key {A : Type} (l : list (string * A)) : list (string * A) :=
  foldr insert_by_key [] l.

(** [{z['trait_type']: z['value']}] *)
Definition collapse (z : json) : Exc json :=
  trait ←! trait_type_of z;
  value ←! subscript z "value";
  Ok (JDict [(trait, value)]).

(** The two assignments to [attributes]. *)
Definition transform_attribute_list (attributes : json) : Exc json :=
  elements ←! iterate attributes;
  keyed ←! map_exc (λ d, key ←! trait_type_of d; Ok (key, d)) elements;
  collapsed ←! map_exc collapse (sorted_by_key keyed).*2;
  Ok (JList collapsed).

(** The body of [for i in data] under [# Transform attributes]: the new
    list is stored into the metadata dict of [i], in place. *)
Definition transform_attributes (i : Dict) : Exc Dict :=
  document ←! subscript (JDict i) "metadata";
  attributes ←! subscript document "attributes";
  attributes' ←! transform_attribute_list attributes;
  match document with
  | JDict m => Ok (dict_set i "metadata" (JDict (dict_set m "attributes" attributes')))
  | _ => Raise TypeError
  end.

(** The pre-pass followed by [flatten(i)], for one entry of a group. *)
Definition flatten_entry (i : Dict) : Exc Dict :=
  i' ←! transform_attributes i;
  Ok (flatten i' "." "").

(** ** The stages of [main] up to the fetch *)

(** The development switch of the module, as shipped. *)
Definition QUERY_INFURA : bool := false.

(** Lines 298 to 309 of [main]: the normalizer, whose second result goes
    to the no-metadata file, and then, when [query_infura] is set, the
    fetch of its first result, else the load of the metadata file.
    [fetch] is [asyncio.run(get_all_metadata(·, total_domains))] and
    [stored] what opening and loading the metadata file gives.  The value
    is the pair of what is written to the no-metadata file and of [data]
    as [main] goes on with it. *)
Definition main_normalize_and_fetch (query_infura : bool)
    (fetch : list Domain → Exc (list Domain)) (stored : Exc (list Domain))
    (data : list Domain) : Exc (list Domain * list Domain) :=
  formatted ←! format_ipfs_hash_in_dicts data;
  if query_infura then
    resolved ←! fetch formatted.1;
    Ok (formatted.2, resolved)
  else
    loaded ←! stored;
    Ok (formatted.2, loaded).

(** [main] with [QUERY_INFURA] set: the duplicate check, the normalizer,
    whose second result goes to the no-metadata file, and the fetch of
    its first result.  The value is the pair of the no-metadata set and
    the resolved list.  The metadata file is not read on this path. *)
Definition main_until_fetch (gateway : nat → json → PostOutcome)
    (data : list Domain) (order : list nat) : Exc (list Domain * list Domain) :=
  let duplicated_entries := check_for_duplicated_entries data in
  if decide (length duplicated_entries ≠ 0%nat)
  then Raise (DuplicatedEntries duplicated_entries)
  else
    main_normalize_and_fetch true (λ formatted, get_all_metadata gateway formatted order)
      (Ok []) data.

(* ================================================================= *)
(** * Notions used in the statements *)

(** How often [n] is listed in [l]. *)
Definition occurrences (n : string) (l : list string) : nat :=
  length (filter (λ x, x = n) l).

(** [s] has an occurrence of [pattern]. *)
Definition occurs (pattern s : string) : Prop :=
  ∃ a b, s = a +:+ pattern +:+ b.

(** The same as a test, position by position. *)
Fixpoint contains (pattern s : string) : bool :=
  String.prefix pattern s ||
  match s with
  | EmptyString => false
  | String _ s' => contains pattern s'
  end.

(** The pointer of [entry] is a string with an occurrence of [ipfs://]. *)
Definition has_scheme (entry : Domain) : bool :=
  match metadata entry with
  | JStr path => contains IPFS_SCHEME path
  | _ => false
  end.

(** What the normalizer is to make of [entry], [path] being its pointer:
    the domain with the same [id], [indexId] and [name] and with [path]
    without its occurrences of the scheme as [metadata]. *)
Definition with_hash (entry : Domain) (path : string) : Domain :=
  {| id := id entry; indexId := indexId entry; name := name entry;
     metadata := JStr (re_sub_literal IPFS_SCHEME path) |}.

(** The fields of a domain other than [metadata]. *)
Definition other_fields (entry : Domain) : string * Z * string :=
  (id entry, indexId entry, name entry).

(** What the fetch is to make of [entry]: the domain with the same [id],
    [indexId] and [name] and with [document] as [metadata]. *)
Definition with_document (entry : Domain) (document : json) : Domain :=
  {| id := id entry; indexId := indexId entry; name := name entry;
     metadata := document |}.

(** The stored domains are in strictly ascending order of their index
    ids ([orderBy: indexId, orderDirection: asc], ids distinct). *)
Definition ascending (stored : list Domain) : Prop :=
  StronglySorted (λ a b, indexId a < indexId b) stored.

(** The stored domains carry the index ids 1, 2, 3, ... in this order. *)
Definition dense (stored : list Domain) : Prop :=
  ∀ i d, stored !! i = Some d → indexId d = Z.of_nat (S i).

(** The entries whose task has not completed are as they were handed in. *)
Definition untouched (data : list Domain) (completed : gset nat)
    (st : PipelineState) : Prop :=
  ∀ i, i ∉ completed → entries st !! i = data !! i.

(** The entries of the completed tasks hold their documents, and so do
    the results gathered for them. *)
Definition resolved (data : list Domain) (docs : nat → json)
    (completed : gset nat) (st : PipelineState) : Prop :=
  ∀ i entry, data !! i = Some entry → i ∈ completed →
    entries st !! i = Some (set_metadata entry (docs i)) ∧
    gathered st !! i = Some (set_metadata entry (docs i)).

(** [s] has a dot. *)
Fixpoint has_dot (s : string) : bool :=
  match s with
  | EmptyString => false
  | String c s' => Ascii.eqb c "." || has_dot s'
  end.

(** A value that [flatten] emits as it is: anything but a non-empty dict
    and a non-empty list. *)
Definition is_leaf (v : json) : bool :=
  match v with
  | JDict (_ :: _) | JList (_ :: _) => false
  | _ => true
  end.

(** [enumerate(l, start)] *)
Definition enumerate (start : nat) (l : list json) : list (nat * json) :=
  zip (seq start (length l)) l.

(** What the element [element.2] at index [element.1] of the list [value]
    under [key] does to [out]: the body of the loop over
    [enumerate(value, start=1)]. *)
Definition flatten_element (separator prefix key : string) (value : json)
    (out : Dict) (element : nat * json) : Dict :=
  match element.2 with
  | JDict ((_ :: _) as d) =>
      dict_update out
        (flatten d separator (prefix +:+ key +:+ separator +:+ pretty element.1 +:+ separator))
  | _ => dict_set out (prefix +:+ key +:+ separator +:+ pretty element.1) value
  end.

(** The attribute [{'trait_type': trait, 'value': value}], and the dict
    [{trait: value}] the pre-pass makes of it. *)
Definition attribute (tv : string * json) : json :=
  JDict [("trait_type", JStr tv.1); ("value", tv.2)].
Definition collapsed (tv : string * json) : json := JDict [tv].

Definition key_le {A : Type} (x y : string * A) : Prop :=
  String.leb x.1 y.1 = true.

(* ================================================================= *)
(** * Example data *)

Definition domain_a1 : Domain := mkDomain "0x01" 1 "wilder.a" (JStr "ipfs://QmA1").
Definition domain_a2 : Domain := mkDomain "0x02" 2 "wilder.a" (JStr "ipfs://QmA2").
Definition domain_a3 : Domain := mkDomain "0x03" 3 "wilder.a" (JStr "ipfs://QmA3").

(** Three domains that share one name. *)
Definition triple_a : list Domain := [domain_a1; domain_a2; domain_a3].

(** A source with the index ids 1, 2, 3, and one with the ids 1 and 2000. *)
Definition dense_store : list Domain :=
  [mkDomain "0x01" 1 "wilder.a" (JStr "ipfs://QmA");
   mkDomain "0x02" 2 "wilder.b" (JStr "ipfs://QmB");
   mkDomain "0x03" 3 "wilder.c" (JStr "ipfs://QmC")].
Definition sparse_store : list Domain :=
  [mkDomain "0x01" 1 "wilder.a" (JStr "ipfs://QmA");
   mkDomain "0x02" 2000 "wilder.b" (JStr "ipfs://QmB")].

(** A source whose first index id is 0, and one whose index ids 1, 1000,
    1001 and 2001 lie in three windows of the cursor. *)
Definition zero_store : list Domain :=
  [mkDomain "0x00" 0 "wilder" (JStr "ipfs://Qm0");
   mkDomain "0x01" 1 "wilder.a" (JStr "ipfs://QmA");
   mkDomain "0x02" 2 "wilder.b" (JStr "ipfs://QmB")].
Definition gapped_store : list Domain :=
  [mkDomain "0x01" 1 "wilder.a" (JStr "ipfs://QmA");
   mkDomain "0x02" 1000 "wilder.b" (JStr "ipfs://QmB");
   mkDomain "0x03" 1001 "wilder.c" (JStr "ipfs://QmC");
   mkDomain "0x04" 2001 "wilder.d" (JStr "ipfs://QmD")].

(** The source of the [n] domains with the index ids 1, ..., [n]. *)
Definition numbered (n : nat) : list Domain :=
  (λ i : nat, mkDomain (pretty i) (Z.of_nat (S i)) ("wilder." +:+ pretty i)
                (JStr ("ipfs://Qm" +:+ pretty i))) <$> seq 0 n.

(** A mock source that answers like [graph_source] but with pages of at
    most [cap] domains. *)
Definition small_page_source (cap : nat) (stored : list Domain) (lastId : Z)
  : GraphResponse :=
  {| status_code := 200;
     domains := take cap (filter (λ d, lastId < indexId d) stored) |}.

(** Domains with a prefixed pointer, with a bare pointer, and with the
    scheme in the middle of the pointer. *)
Definition prefixed_entry : Domain :=
  mkDomain "0x01" 1 "wilder.a" (JStr "ipfs://QmABC123").
Definition bare_entry : Domain := mkDomain "0x02" 2 "wilder.b" (JStr "QmX").
Definition infix_entry : Domain := mkDomain "0x03" 3 "wilder.c" (JStr "xipfs://QmABC").

(** Three domains after the normalizer, and a gateway that answers task
    [i] with a document of its own. *)
Definition hashed_abc : list Domain :=
  [mkDomain "0x01" 1 "wilder.a" (JStr "QmA");
   mkDomain "0x02" 2 "wilder.b" (JStr "QmB");
   mkDomain "0x03" 3 "wilder.c" (JStr "QmC")].
Definition document_for (i : nat) : json := JDict [("name", JStr (pretty i))].
Definition good_gateway (i : nat) (arg : json) : PostOutcome :=
  Responded {| resp_status := 200; resp_json := Some (document_for i) |}.

(** A gateway that answers every request with status 500 and a JSON body
    that describes the error. *)
Definition error_document : json :=
  JDict [("Message", JStr "invalid path"); ("Code", JNum 0); ("Type", JStr "error")].
Definition failing_gateway (i : nat) (arg : json) : PostOutcome :=
  Responded {| resp_status := 500; resp_json := Some error_document |}.

(** A domain that is no child of [wilder.wheels.genesis] but whose name
    ends like one. *)
Definition stray_entry : Domain :=
  mkDomain "0x09" 9 "candy.wilder.wheels.genesis.1" (JDict []).

(** The attribute lists of the two spellings of the trait key. *)
Definition zeta_alpha (trait_key : string) : json :=
  JList [JDict [(trait_key, JStr "Zeta"); ("value", JNum 1)];
         JDict [(trait_key, JStr "Alpha"); ("value", JNum 2)]].
Definition zeta_alpha_entry (trait_key : string) : Dict :=
  [("tokenId", JStr "0x01"); ("domain", JStr "wilder.wheels.genesis.1");
   ("metadata", JDict [("attributes", zeta_alpha trait_key)])].

(* ================================================================= *)
(** * More of the script *)

(** ** [get_total_domains] *)

(** What [get_total_domains] ends in: the total, or the exception of the
    [return] of a name that was never assigned, or that of [domains[0]]
    on an empty list. *)
Inductive TotalOutcome : Type :=
  | Total (total_domains : Z)
  | UnboundLocalError
  | IndexError.

(** [get_total_domains()], [request] being the answer to its query. *)
Definition get_total_domains (request : GraphResponse) : TotalOutcome :=
  if decide (status_code request = 200) then
    match domains request with
    | d :: _ => Total (indexId d)
    | [] => IndexError
    end
  else UnboundLocalError.

(** The source's answer to the query of [get_total_domains]: the first
    domain in descending [indexId] order ([first: 1, orderBy: indexId,
    orderDirection: desc]), the stored domains being kept in ascending
    order. *)
Definition graph_total_source (stored : list Domain) : GraphResponse :=
  {| status_code := 200; domains := take 1 (reverse stored) |}.

(** The pages of a source up to page [n], in the order of the requests:
    the cursors are 0, 1000, 2000, ... *)
Definition pages_before (post : Z → GraphResponse) (n : nat) : list Domain :=
  concat ((λ k, domains (post (1000 * Z.of_nat k))) <$> seq 0 n).

(** A source that answers every request with the same page. *)
Definition stuck_source (lastId : Z) : GraphResponse :=
  {| status_code := 200; domains := dense_store |}.

(** A source that fails on its second page. *)
Definition failing_source (lastId : Z) : GraphResponse :=
  if decide (lastId = 0) then {| status_code := 200; domains := dense_store |}
  else {| status_code := 502; domains := [] |}.

(** ** The export of one group in [main] *)

(** [d['domain']], the sort key of the flattened records.  As for the
    trait names, the model covers domain names that are strings. *)
Definition domain_of (d : Dict) : Exc string :=
  v ←! subscript (JDict d) "domain";
  match v with
  | JStr s => Ok s
  | _ => Raise TypeError
  end.

(** The body of [for domain in DOMAIN_GROUPS] up to the sort, [data]
    being what [json.load] read from the group's file: the pre-pass on
    every entry, then [flatten] on every entry, then
    [sorted(results, key=lambda d: d['domain'])]. *)
Definition process_group (data : list Dict) : Exc (list Dict) :=
  results ←! map_exc transform_attributes data;
  keyed ←! map_exc (λ d, key ←! domain_of d; Ok (key, d))
             ((λ i, flatten i "." "") <$> results);
  Ok (sorted_by_key keyed).*2.

(** ** [put_json_to_csv_in_file] *)

(** The body of [for entry in data]; the state is [count] and the rows
    written so far.  A row is the list of its cells, before the writer
    turns them into text. *)
Definition csv_step (st : nat * list (list json)) (entry : Dict)
  : nat * list (list json) :=
  let st1 :=
    if decide (st.1 = 0%nat) then (S st.1, st.2 ++ [JStr <$> entry.*1]) else st in
  (st1.1, st1.2 ++ [entry.*2]).

Definition put_json_to_csv_in_file (data : list Dict) : list (list json) :=
  (fold_left csv_step data (0%nat, [])).2.

(** The order of two flattened records by their domain names. *)
Definition domain_le (a b : Dict) : Prop :=
  ∃ x y, domain_of a = Ok x ∧ domain_of b = Ok y ∧ String.leb x y = true.

(** A group entry with the given name and attributes, and one whose
    document has no attributes. *)
Definition entry_named (domain : string) (attributes : json) : Dict :=
  [("tokenId", JStr "0x01"); ("domain", JStr domain);
   ("metadata", JDict [("name", JStr "n"); ("attributes", attributes)])].
Definition entry_without_attributes : Dict :=
  [("tokenId", JStr "0x02"); ("domain", JStr "wilder.wheels.genesis.2");
   ("metadata", JDict [("name", JStr "n")])].

(** ** Further notions and example data *)

(** The exception [get_metadata] raises on an outcome, if any. *)
Definition error_of (outcome : PostOutcome) : option PyErr :=
  match outcome with
  | ConnectionFailed => Some ConnectError
  | Responded response =>
      match resp_json response with
      | None => Some JSONDecodeError
      | Some _ => None
      end
  end.

(** A domain whose pointer is [null], and a gateway that answers task 1
    with a body that does not decode and fails the connection of task 2. *)
Definition null_entry : Domain := mkDomain "0x04" 4 "wilder.d" JNull.
Definition flaky_gateway (i : nat) (arg : json) : PostOutcome :=
  match i with
  | 1%nat => Responded {| resp_status := 200; resp_json := None |}
  | 2%nat => ConnectionFailed
  | _ => Responded {| resp_status := 200; resp_json := Some (document_for i) |}
  end.

(** A child of [wilder.wheels.genesis], the group's own domain and a
    grandchild. *)
Definition child_entry : Domain :=
  mkDomain "0x11" 11 "wilder.wheels.genesis.1" (JDict []).
Definition group_node_entry : Domain :=
  mkDomain "0x10" 10 "wilder.wheels.genesis" (JDict []).
Definition grandchild_entry : Domain :=
  mkDomain "0x12" 12 "wilder.wheels.genesis.1.extra" (JDict []).

(** [d] with [p] put before every key. *)
Definition with_prefix (p : string) (d : Dict) : Dict :=
  (λ kv, (p +:+ kv.1, kv.2)) <$> d.

(** A value that is not a non-empty dict. *)
Definition dissolved (v : json) : Prop := ∀ kv d, v ≠ JDict (kv :: d).

(** The prefix of a value's keys can be moved out of the flattening: for
    the value as an item of a dict, and for the dict it is. *)
Definition prefix_moves (v : json) : Prop :=
  (∀ separator p q key out,
     flatten_item separator (p +:+ q) key v (with_prefix p out) =
     with_prefix p (flatten_item separator q key v out)) ∧
  (∀ d, v = JDict d → ∀ separator p q,
     flatten d separator (p +:+ q) = with_prefix p (flatten d separator q)).

(** A value is flattened into values that are no non-empty dicts. *)
Definition values_dissolved (v : json) : Prop :=
  (∀ separator prefix key out,
     Forall dissolved out.*2 →
     Forall dissolved (flatten_item separator prefix key v out).*2) ∧
  (∀ d, v = JDict d → ∀ separator prefix,
     Forall dissolved (flatten d separator prefix).*2).

(** A document with a nested dict, a list of dicts, a list of scalars and
    empty containers. *)
Definition nested_document : Dict :=
  [("name", JStr "Wheel");
   ("image", JDict [("url", JStr "ipfs://QmI"); ("size", JDict [("w", JNum 1); ("h", JNum 2)])]);
   ("tags", JList [JStr "a"; JStr "b"]);
   ("parts", JList [JDict [("id", JNum 7)]; JDict []]);
   ("none", JDict []); ("nothing", JList [])].
Definition flat_document : Dict :=
  [("tokenId", JStr "0x01"); ("domain", JStr "wilder.a"); ("count", JNum 3);
   ("none", JDict []); ("nothing", JList [])].

(** The attributes paired with the trait names and values read from them. *)
Definition paired (attrs : list (string * json)) (l : list Dict)
  : list (string * (json * Dict)) :=
  zip_with (λ tv d, (tv.1, (tv.2, d))) attrs l.

(** An attribute with keys besides [trait_type] and [value]. *)
Definition boosted_attribute : Dict :=
  [("display_type", JStr "boost_number"); ("trait_type", JStr "Speed");
   ("value", JNum 40); ("max_value", JNum 100)].
Definition plain_attribute : Dict :=
  [("trait_type", JStr "Engine"); ("value", JStr "V8")].

(* ================================================================= *)
(** * Properties *)

(** ** PaginatedCollector *)

Section Collector.

Lemma get_all_domains_loop_more_fuel post fuel extra lastId results r :
  get_all_domains_loop post fuel lastId results = Some r →
  get_all_domains_loop post (fuel + extra) lastId results = Some r.
Proof.
  revert lastId results. induction fuel as [|fuel IH]; intros lastId results; [done|].
  cbn [get_all_domains_loop Nat.add]. repeat case_decide; auto.
Qed.

(** *** Any ascending source: no domain is left out *)

Lemma ascending_filter (P : Domain → Prop) `{!∀ d, Decision (P d)} (stored : list Domain) :
  ascending stored → ascending (filter P stored).
Proof.
  unfold ascending. induction 1 as [|d stored Hsorted IH Hd]; [constructor|].
  rewrite filter_cons. case_decide; [|done].
  constructor; [done|]. apply Forall_forall. intros d' [_ Hin]%list_elem_of_filter.
  by eapply Forall_forall in Hd.
Qed.

(** In an ascending list of domains above the cursor, the domain at
    position [j] has an index id of at least [cursor + 1 + j]. *)
Lemma ascending_lookup (cursor : Z) (stored : list Domain) (j : nat) (d : Domain) :
  ascending stored → Forall (λ d, cursor < indexId d) stored →
  stored !! j = Some d → cursor + 1 + Z.of_nat j ≤ indexId d.
Proof.
  unfold ascending. intros Hsorted. revert cursor j.
  induction Hsorted as [|x stored Hsorted IH Hx]; intros cursor j Habove Hj; [done|].
  apply Forall_cons in Habove as [Hcx Habove]. destruct j as [|j].
  - cbn in Hj. simplify_eq. lia.
  - cbn in Hj. specialize (IH (indexId x) j Hx Hj). lia.
Qed.

(** A page holds every domain of its window of 1000 index ids. *)
Lemma page_window (stored : list Domain) (cursor : Z) (d : Domain) :
  ascending stored → d ∈ stored →
  cursor < indexId d ≤ cursor + 1000 →
  d ∈ domains (graph_source stored cursor).
Proof.
  intros Hsorted Hin [Hlo Hhi]. unfold graph_source. cbn [domains].
  assert (d ∈ filter (λ d, cursor < indexId d) stored) as Hd
    by (by apply list_elem_of_filter).
  apply list_elem_of_lookup in Hd as [j Hj]. apply elem_of_take. exists j.
  split; [done|].
  assert (Forall (λ d, cursor < indexId d) (filter (λ d, cursor < indexId d) stored))
    as Habove by (apply Forall_forall; by intros d' [? _]%list_elem_of_filter).
  pose proof (ascending_lookup cursor _ j d
                (ascending_filter (λ d, cursor < indexId d) _ Hsorted) Habove Hj).
  lia.
Qed.

Lemma page_sublist (stored : list Domain) (cursor : Z) :
  sublist (domains (graph_source stored cursor)) stored.
Proof.
  unfold graph_source. cbn [domains]. etrans; [apply sublist_take|apply sublist_filter].
Qed.

Lemma page_empty (stored : list Domain) (cursor : Z) (d : Domain) :
  domains (graph_source stored cursor) = [] → d ∈ stored → indexId d ≤ cursor.
Proof.
  unfold graph_source. cbn [domains]. intros Hnil Hin.
  apply take_nil_inv in Hnil as [|Hnil]; [done|].
  destruct (decide (cursor < indexId d)) as [Hlt|]; [|lia].
  by destruct (filter_nil_not_elem_of _ _ d Hnil Hlt).
Qed.

Lemma get_all_domains_loop_complete (stored : list Domain) (fuel k : nat) results :
  ascending stored →
  (0 < fuel)%nat →
  Forall (λ d, indexId d + 1000 ≤ 1000 * Z.of_nat (k + fuel)) stored →
  ∃ pages,
    get_all_domains_loop (graph_source stored) fuel (1000 * Z.of_nat k) results =
      Some (Ok (results ++ pages)) ∧
    (∀ d, d ∈ stored → 1000 * Z.of_nat k < indexId d → d ∈ pages) ∧
    (∀ d, d ∈ pages → d ∈ stored).
Proof.
  intros Hsorted. revert k results.
  induction fuel as [|fuel IH]; intros k results Hpos Hfuel; [lia|].
  cbn [get_all_domains_loop]. rewrite decide_True by done.
  pose proof (page_sublist stored (1000 * Z.of_nat k)) as Hsub.
  destruct (domains (graph_source stored (1000 * Z.of_nat k))) as [|x page] eqn:Hpage.
  - rewrite decide_True by (cbn; lia). exists []. rewrite app_nil_r.
    split_and!; [done| |by intros d ?%elem_of_nil].
    intros d Hin Hlt. apply (page_empty _ _ d Hpage) in Hin. lia.
  - rewrite decide_False by (cbn [length]; lia).
    assert (∀ d, d ∈ x :: page → d ∈ stored) as Hpage_in.
    { intros d Hd. by eapply sublist_submseteq, elem_of_submseteq in Hsub. }
    assert (1000 * Z.of_nat k < indexId x) as Hx.
    { assert (x ∈ domains (graph_source stored (1000 * Z.of_nat k))) as Hin
        by (rewrite Hpage; left).
      unfold graph_source in Hin. cbn [domains] in Hin.
      apply elem_of_take in Hin as (j & Hj & _).
      apply list_elem_of_lookup_2, list_elem_of_filter in Hj. tauto. }
    assert (0 < fuel)%nat as Hpos'.
    { pose proof (proj1 (Forall_forall _ _) Hfuel x (Hpage_in x ltac:(left))) as Hb.
      cbv beta in Hb. lia. }
    replace (1000 * Z.of_nat k + 1000) with (1000 * Z.of_nat (S k)) by lia.
    destruct (IH (S k) (results ++ x :: page) Hpos') as (pages & Hrun & Hall & Honly).
    { eapply Forall_impl; [exact Hfuel|]. intros d Hd. cbv beta in Hd |- *. lia. }
    exists ((x :: page) ++ pages). rewrite Hrun, <- app_assoc. split_and!; [done| |].
    + intros d Hin Hlt. apply elem_of_app.
      destruct (decide (indexId d ≤ 1000 * Z.of_nat k + 1000)) as [Hle|Hgt].
      * left. rewrite <- Hpage. apply page_window; [done|done|lia].
      * right. apply Hall; [done|lia].
    + intros d [Hd|Hd]%elem_of_app; auto.
Qed.

(** *** A source with dense index ids: every domain exactly once *)

(** On dense index ids the filter [indexId_gt: cursor] drops the first
    [cursor] domains. *)
Lemma filter_gt_dense (offset cursor : nat) (stored : list Domain) :
  (∀ i d, stored !! i = Some d → indexId d = Z.of_nat (S (offset + i))) →
  filter (λ d, Z.of_nat cursor < indexId d) stored = drop (cursor - offset) stored.
Proof.
  revert offset. induction stored as [|d stored IH]; intros offset Hdense.
  - by rewrite drop_nil.
  - rewrite filter_cons. pose proof (Hdense 0%nat d eq_refl) as Hd.
    assert (∀ i d', stored !! i = Some d' → indexId d' = Z.of_nat (S (S offset + i))).
    { intros i d' Hi. rewrite (Hdense (S i) d' Hi). f_equal. lia. }
    destruct (decide (cursor ≤ offset)%nat) as [Hle|Hgt].
    + rewrite decide_True by lia. rewrite (IH (S offset)) by done.
      replace (cursor - offset)%nat with 0%nat by lia.
      by replace (cursor - S offset)%nat with 0%nat by lia.
    + rewrite decide_False by lia.
      replace (cursor - offset)%nat with (S (cursor - S offset)) by lia. cbn [drop].
      by apply IH.
Qed.

Lemma graph_source_dense (stored : list Domain) (k : nat) :
  dense stored →
  domains (graph_source stored (1000 * Z.of_nat k)) =
  take 1000 (drop (1000 * k) stored).
Proof.
  intros Hdense. unfold graph_source. cbn [domains].
  replace (1000 * Z.of_nat k) with (Z.of_nat (1000 * k)) by lia.
  rewrite (filter_gt_dense 0) by done. by rewrite Nat.sub_0_r.
Qed.

Lemma get_all_domains_loop_dense (stored : list Domain) (fuel k : nat) results :
  dense stored →
  (0 < fuel)%nat → (length stored + 1000 ≤ 1000 * (k + fuel))%nat →
  get_all_domains_loop (graph_source stored) fuel (1000 * Z.of_nat k) results =
  Some (Ok (results ++ drop (1000 * k) stored)).
Proof.
  intros Hdense. revert k results.
  induction fuel as [|fuel IH]; intros k results Hpos Hfuel; [lia|].
  cbn [get_all_domains_loop]. rewrite decide_True by done.
  rewrite graph_source_dense by done.
  destruct (drop (1000 * k) stored) as [|d rest] eqn:Hdrop.
  - rewrite take_nil. rewrite decide_True by (cbn; lia). by rewrite app_nil_r.
  - assert (1000 * k < length stored)%nat as Hlt.
    { destruct (decide (1000 * k < length stored)%nat); [done|].
      rewrite drop_ge in Hdrop by lia. done. }
    rewrite decide_False by (rewrite length_take; cbn [length]; lia).
    replace (1000 * Z.of_nat k + 1000) with (1000 * Z.of_nat (S k)) by lia.
    rewrite IH by lia. rewrite <- app_assoc. do 3 f_equal.
    rewrite <- Hdrop. etrans; [|apply (take_drop 1000)].
    f_equal. rewrite drop_drop. f_equal. lia.
Qed.

Lemma dense_fuel (stored : list Domain) (fuel : nat) :
  dense stored → (0 < fuel)%nat →
  Forall (λ d, indexId d + 1000 ≤ 1000 * Z.of_nat fuel) stored →
  (length stored + 1000 ≤ 1000 * fuel)%nat.
Proof.
  intros Hdense Hpos Hfuel. destruct (decide (length stored = 0%nat)) as [->|Hne]; [lia|].
  destruct (lookup_lt_is_Some_2 stored (length stored - 1)) as [d Hd]; [lia|].
  pose proof (Hdense _ _ Hd) as Hid.
  apply list_elem_of_lookup_2 in Hd.
  pose proof (proj1 (Forall_forall _ _) Hfuel d Hd) as Hb. cbv beta in Hb. lia.
Qed.

(** Index ids 1, 2, 3, ... are ascending, positive and bounded by the
    number of domains. *)
Lemma dense_ascending_from (offset : nat) (stored : list Domain) :
  (∀ i d, stored !! i = Some d → indexId d = Z.of_nat (S (offset + i))) →
  StronglySorted (λ a b, indexId a < indexId b) stored.
Proof.
  revert offset. induction stored as [|d stored IH]; intros offset Hdense;
    constructor.
  - apply (IH (S offset)). intros i d' Hi. rewrite (Hdense (S i) d' Hi). f_equal. lia.
  - apply Forall_lookup. intros i d' Hi.
    rewrite (Hdense 0%nat d eq_refl), (Hdense (S i) d' Hi). lia.
Qed.

Lemma dense_ascending (stored : list Domain) : dense stored → ascending stored.
Proof. intros Hdense. by apply (dense_ascending_from 0). Qed.

Lemma numbered_dense (n : nat) : dense (numbered n).
Proof.
  intros i d Hi. unfold numbered in Hi. rewrite list_lookup_fmap in Hi.
  destruct (seq 0 n !! i) as [j|] eqn:Hj; [|done].
  apply lookup_seq in Hj as [-> _]. cbn in Hi. by simplify_eq.
Qed.

Lemma numbered_bounds (n : nat) :
  Forall (λ d, 0 < indexId d ≤ Z.of_nat n) (numbered n).
Proof.
  apply Forall_lookup. intros i d Hi. rewrite (numbered_dense n i d Hi).
  apply lookup_lt_Some in Hi. unfold numbered in Hi.
  rewrite length_fmap, length_seq in Hi. lia.
Qed.

End Collector.

(** C3 (as amended): the collector moves its cursor on by 1000 after each
    page, whatever index id it has seen last.  On a source that answers
    as the query asks, with the first 1000 (all, when fewer are left) of
    the domains whose index id is greater than the cursor, in ascending
    order, and whose domains have distinct positive index ids, the loop
    ends (within [fuel] pages as soon as 1000 * [fuel] is at least the
    greatest index id plus 1000), and it returns every stored domain and
    nothing else; when the index ids are exactly 1, ..., N the result is
    the N stored domains, each once and in order. *)
Theorem get_all_domains_complete (stored : list Domain) (fuel : nat) :
  ascending stored →
  Forall (λ d, 0 < indexId d) stored →
  (0 < fuel)%nat →
  Forall (λ d, indexId d + 1000 ≤ 1000 * Z.of_nat fuel) stored →
  ∃ results,
    get_all_domains (graph_source stored) fuel = Some (Ok results) ∧
    (∀ d, d ∈ results ↔ d ∈ stored) ∧
    (dense stored → results = stored).
Proof.
  intros Hsorted Hpositive Hpos Hfuel. unfold get_all_domains.
  destruct (get_all_domains_loop_complete stored fuel 0 [] Hsorted Hpos Hfuel)
    as (pages & Hrun & Hall & Honly).
  change (1000 * Z.of_nat 0) with 0 in Hrun, Hall. rewrite app_nil_l in Hrun.
  exists pages. split_and!; [done| |].
  - intros d. split; [apply Honly|]. intros Hin. apply Hall; [done|].
    by eapply Forall_forall in Hpositive.
  - intros Hdense.
    pose proof (dense_fuel stored fuel Hdense Hpos Hfuel) as Hlen.
    pose proof (get_all_domains_loop_dense stored fuel 0 [] Hdense Hpos ltac:(lia))
      as Hrun'.
    change (1000 * Z.of_nat 0) with 0 in Hrun'. rewrite Hrun in Hrun'.
    rewrite app_nil_l, drop_0 in Hrun'. by simplify_eq.
Qed.

(** The theorem at the source of the 2500 domains with the index ids 1,
    ..., 2500, which come in the pages of 1000, 1000 and 500 domains
    before the empty page, and at a source whose four index ids lie in
    three windows of the cursor. *)
Lemma get_all_domains_complete_witness :
  get_all_domains (graph_source (numbered 2500)) 4 = Some (Ok (numbered 2500)) ∧
  ∃ results,
    get_all_domains (graph_source gapped_store) 4 = Some (Ok results) ∧
    ∀ d, d ∈ results ↔ d ∈ gapped_store.
Proof.
  split.
  - destruct (get_all_domains_complete (numbered 2500) 4)
      as (results & Hrun & _ & Hdense).
    + apply dense_ascending, numbered_dense.
    + eapply Forall_impl; [apply (numbered_bounds 2500)|]. cbv beta. lia.
    + lia.
    + eapply Forall_impl; [apply (numbered_bounds 2500)|]. cbv beta. lia.
    + rewrite Hrun, Hdense; [reflexivity|]. apply numbered_dense.
  - destruct (get_all_domains_complete gapped_store 4)
      as (results & Hrun & Hall & _).
    + unfold ascending, gapped_store. repeat constructor; cbn; lia.
    + unfold gapped_store. repeat constructor; cbn; lia.
    + lia.
    + unfold gapped_store. repeat constructor; cbn; lia.
    + by exists results.
Defined.

(** C3, the claim as stated fails, in three ways.  With the index ids 1
    and 2000 the second page, asked for with the cursor 1000, returns the
    domain 2000 again.  With the index ids 0, 1, 2 the domain 0 is never
    returned, the first cursor being 0.  And when the source serves pages
    of 2 domains, of the index ids 1, 2, 3 the domain 3 is never
    returned: the cursor after the first page is 1000, not 2. *)
Lemma get_all_domains_duplicates_and_gaps :
  (ascending sparse_store ∧
   (indexId <$> sparse_store) = [1; 2000] ∧
   ∃ results, get_all_domains (graph_source sparse_store) 3 = Some (Ok results) ∧
              (indexId <$> results) = [1; 2000; 2000] ∧
              results ≠ sparse_store) ∧
  (ascending zero_store ∧
   (indexId <$> zero_store) = [0; 1; 2] ∧
   ∃ results, get_all_domains (graph_source zero_store) 2 = Some (Ok results) ∧
              (indexId <$> results) = [1; 2]) ∧
  (ascending dense_store ∧
   (indexId <$> dense_store) = [1; 2; 3] ∧
   ∃ results, get_all_domains (small_page_source 2 dense_store) 2 = Some (Ok results) ∧
              (indexId <$> results) = [1; 2]).
Proof.
  split_and!; try reflexivity.
  - unfold ascending, sparse_store. repeat constructor; cbn; lia.
  - eexists. split; [vm_compute; reflexivity|]. split; [reflexivity|discriminate].
  - unfold ascending, zero_store. repeat constructor; cbn; lia.
  - eexists. split; [vm_compute; reflexivity|]. reflexivity.
  - unfold ascending, dense_store. repeat constructor; cbn; lia.
  - eexists. split; [vm_compute; reflexivity|]. reflexivity.
Qed.

(** ** IntegrityValidator *)

Section Validator.

Lemma occurrences_nil n : occurrences n [] = 0%nat.
Proof. done. Qed.

Lemma occurrences_cons n x l :
  occurrences n (x :: l) = ((if decide (x = n) then 1 else 0) + occurrences n l)%nat.
Proof. unfold occurrences. rewrite filter_cons. by case_decide. Qed.

Lemma occurrences_app n l1 l2 :
  occurrences n (l1 ++ l2) = (occurrences n l1 + occurrences n l2)%nat.
Proof. unfold occurrences. by rewrite filter_app, length_app. Qed.

Lemma occurrences_pos n l : n ∈ l ↔ (0 < occurrences n l)%nat.
Proof.
  induction l as [|x l IH]; [rewrite elem_of_nil; cbn; lia|].
  rewrite occurrences_cons, elem_of_cons. case_decide; subst; [intuition lia|].
  rewrite IH. intuition (congruence || lia).
Qed.

Lemma occurrences_NoDup l : NoDup l ↔ ∀ n, (occurrences n l ≤ 1)%nat.
Proof.
  induction l as [|x l IH].
  - split; [intros _ n; cbn; lia | intros; constructor].
  - rewrite NoDup_cons, IH. split.
    + intros [Hx Hl] n. rewrite occurrences_cons. case_decide; subst.
      * rewrite occurrences_pos in Hx. lia.
      * apply Hl.
    + intros H. split.
      * specialize (H x). rewrite occurrences_cons, decide_True in H by done.
        rewrite occurrences_pos. lia.
      * intros n. specialize (H n). rewrite occurrences_cons in H. lia.
Qed.

(** The loop invariant: a name already seen is appended at each of its
    occurrences, a new name at each occurrence but the first. *)
Lemma dup_loop_occurrences names seen duplicated n :
  occurrences n (fold_left dup_step names (seen, duplicated)).2 =
  (occurrences n duplicated +
   if decide (n ∈ seen) then occurrences n names
   else Nat.pred (occurrences n names))%nat.
Proof.
  revert seen duplicated.
  induction names as [|x names IH]; intros seen duplicated; cbn [fold_left].
  - cbn [fst snd]. rewrite occurrences_nil. case_decide; cbn; lia.
  - rewrite occurrences_cons. unfold dup_step at 2; cbn [fst snd].
    destruct (decide (x ∉ seen)) as [Hx|Hx].
    + rewrite IH. destruct (decide (x = n)) as [->|Hne].
      * rewrite decide_True by set_solver. rewrite (decide_False (P := n ∈ seen)) by done.
        lia.
      * destruct (decide (n ∈ seen)).
        -- rewrite decide_True by set_solver. lia.
        -- rewrite decide_False by set_solver. lia.
    + apply dec_stable in Hx.
      rewrite IH, occurrences_app, occurrences_cons, occurrences_nil.
      destruct (decide (x = n)) as [->|Hne]; [rewrite decide_True by done|];
        cbn [fst snd]; repeat case_decide; done || lia.
Qed.

End Validator.

(** C4 (as amended): the validator returns the empty list exactly when
    all names are distinct; a name is returned if and only if it occurs
    more than once; and a name that occurs k times is returned k - 1
    times, once for every occurrence after the first. *)
Theorem check_for_duplicated_entries_spec (data : list Domain) :
  (check_for_duplicated_entries data = [] ↔ NoDup (name <$> data)) ∧
  (∀ n, n ∈ check_for_duplicated_entries data ↔ (2 ≤ occurrences n (name <$> data))%nat) ∧
  (∀ n, occurrences n (check_for_duplicated_entries data) =
        Nat.pred (occurrences n (name <$> data))).
Proof.
  assert (Hocc : ∀ n, occurrences n (check_for_duplicated_entries data) =
                      Nat.pred (occurrences n (name <$> data))).
  { intros n. unfold check_for_duplicated_entries.
    rewrite dup_loop_occurrences, decide_False by set_solver. done. }
  split_and!; [|intros n; rewrite occurrences_pos, Hocc; lia|done].
  rewrite occurrences_NoDup. split.
  - intros Hnil n. specialize (Hocc n). rewrite Hnil in Hocc. cbn in Hocc. lia.
  - intros Hle. destruct (check_for_duplicated_entries data) as [|x l] eqn:E; [done|].
    specialize (Hocc x). specialize (Hle x).
    rewrite occurrences_cons, decide_True in Hocc by done. lia.
Qed.

(** C4, the claim as stated fails: a name that occurs three times is
    listed twice. *)
Lemma check_for_duplicated_entries_lists_twice :
  check_for_duplicated_entries triple_a = ["wilder.a"; "wilder.a"] ∧
  ¬ NoDup (check_for_duplicated_entries triple_a).
Proof.
  assert (E : check_for_duplicated_entries triple_a = ["wilder.a"; "wilder.a"])
    by (vm_compute; reflexivity).
  split; [done|]. rewrite E. intros H. apply NoDup_cons in H as [H _]. set_solver.
Qed.

(** ** IdentifierNormalizer *)

Section Strings.

Lemma string_app_cons (x : ascii) (a b : string) :
  String x a +:+ b = String x (a +:+ b).
Proof. reflexivity. Qed.

Lemma string_app_nil_l (a : string) : "" +:+ a = a.
Proof. reflexivity. Qed.

Lemma string_app_assoc (a b c : string) : (a +:+ b) +:+ c = a +:+ b +:+ c.
Proof.
  induction a as [|x a IH]; [done|]. rewrite !string_app_cons. by f_equal.
Qed.

Lemma string_app_nil_r (a : string) : a +:+ "" = a.
Proof.
  induction a as [|x a IH]; [done|]. rewrite string_app_cons. by f_equal.
Qed.

Lemma string_length_app (a b : string) :
  String.length (a +:+ b) = (String.length a + String.length b)%nat.
Proof.
  induction a as [|x a IH]; [done|]. rewrite string_app_cons. cbn. by rewrite IH.
Qed.

Lemma prefix_spec (p s : string) : String.prefix p s = true ↔ ∃ r, s = p +:+ r.
Proof.
  revert s. induction p as [|x p IH]; intros s.
  - split; [eexists; reflexivity|by destruct s].
  - destruct s as [|y s]; cbn [String.prefix].
    + split; [done|by intros [r ?]].
    + destruct (ascii_dec x y) as [->|Hne].
      * rewrite IH. split; intros [r Hr]; exists r; rewrite string_app_cons in *; congruence.
      * split; [done|intros [r Hr]; rewrite string_app_cons in Hr; congruence].
Qed.

Lemma prefix_app (p r : string) : String.prefix p (p +:+ r) = true.
Proof. apply prefix_spec. by exists r. Qed.

Lemma contains_spec (p s : string) : contains p s = true ↔ occurs p s.
Proof.
  induction s as [|c s IH]; cbn [contains]; rewrite orb_true_iff, prefix_spec.
  - split.
    + intros [[r Hr]|]; [|done]. by exists "", r.
    + intros (a & b & Hs). left. exists b. destruct a; [done|].
      by rewrite string_app_cons in Hs.
  - rewrite IH. split.
    + intros [[r Hr]|(a & b & ->)]; [by exists "", r|by exists (String c a), b].
    + intros (a & b & Hs). destruct a as [|c' a].
      * left. by exists b.
      * right. rewrite string_app_cons in Hs. simplify_eq. by exists a, b.
Qed.

End Strings.

Section ReSub.
Implicit Type pattern : string.

Lemma re_sub_go_skip pattern (a s : string) :
  re_sub_go pattern (String.length a) (a +:+ s) = re_sub_go pattern 0 s.
Proof.
  induction a as [|x a IH]; [by destruct s|].
  rewrite string_app_cons. cbn [String.length re_sub_go]. done.
Qed.

Lemma re_sub_go_here pattern (s : string) :
  pattern ≠ "" → re_sub_go pattern 0 (pattern +:+ s) = re_sub_go pattern 0 s.
Proof.
  intros Hne. destruct pattern as [|x p]; [done|].
  rewrite string_app_cons. cbn [re_sub_go]. rewrite <- string_app_cons, prefix_app. cbn [String.length Nat.pred]. apply re_sub_go_skip.
Qed.

Lemma re_sub_go_next pattern (c : ascii) (s : string) :
  String.prefix pattern (String c s) = false →
  re_sub_go pattern 0 (String c s) = String c (re_sub_go pattern 0 s).
Proof. intros H. cbn [re_sub_go]. by rewrite H. Qed.

Lemma re_sub_go_length pattern (k : nat) (s : string) :
  (String.length (re_sub_go pattern k s) ≤ String.length s)%nat.
Proof.
  revert k. induction s as [|c s IH]; intros k; [done|].
  cbn [re_sub_go]. destruct k; [|cbn; etrans; [apply IH|lia]].
  destruct (String.prefix _ _); cbn; [etrans; [apply IH|lia]|].
  specialize (IH 0%nat). lia.
Qed.

Lemma re_sub_go_absent pattern (s : string) :
  ¬ occurs pattern s → re_sub_go pattern 0 s = s.
Proof.
  induction s as [|c s IH]; intros Hno; [done|].
  rewrite re_sub_go_next.
  - f_equal. apply IH. intros (a & b & ->). apply Hno. by exists (String c a), b.
  - destruct (String.prefix _ _) eqn:E; [|done].
    apply prefix_spec in E as [r Hr]. destruct Hno. by exists "", r.
Qed.

Lemma re_sub_go_shorter pattern (s : string) :
  pattern ≠ "" → occurs pattern s →
  (String.length (re_sub_go pattern 0 s) < String.length s)%nat.
Proof.
  intros Hne (a & b & ->). induction a as [|c a IH].
  - rewrite string_app_nil_l, re_sub_go_here by done.
    pose proof (re_sub_go_length pattern 0 b). rewrite string_length_app.
    destruct pattern; [done|cbn; lia].
  - rewrite string_app_cons.
    destruct (String.prefix pattern (String c (a +:+ pattern +:+ b))) eqn:E.
    + apply prefix_spec in E as [r Hr]. rewrite Hr, re_sub_go_here by done.
      pose proof (re_sub_go_length pattern 0 r). rewrite string_length_app.
      destruct pattern; [done|cbn; lia].
    + rewrite re_sub_go_next by done. cbn. lia.
Qed.

(** The test [hash == entry['metadata']] succeeds exactly on the strings
    without an occurrence of the pattern. *)
Lemma re_sub_literal_fixed pattern (s : string) :
  pattern ≠ "" → re_sub_literal pattern s = s ↔ ¬ occurs pattern s.
Proof.
  intros Hne. unfold re_sub_literal.
  replace (match pattern with "" => s | _ => re_sub_go pattern 0 s end)
    with (re_sub_go pattern 0 s) by (by destruct pattern).
  split.
  - intros Heq Hocc. apply re_sub_go_shorter in Hocc; [|done].
    rewrite Heq in Hocc. lia.
  - apply re_sub_go_absent.
Qed.

Lemma re_sub_go_present pattern (s : string) :
  re_sub_go pattern 0 s ≠ s → occurs pattern s.
Proof.
  induction s as [|c s IH]; intros Hneq; [done|].
  destruct (String.prefix pattern (String c s)) eqn:E.
  - apply prefix_spec in E as [r Hr]. by exists "", r.
  - rewrite re_sub_go_next in Hneq by done.
    destruct IH as (a & b & ->); [congruence|]. by exists (String c a), b.
Qed.

Lemma re_sub_literal_changed pattern (s : string) :
  pattern ≠ "" → re_sub_literal pattern s ≠ s ↔ occurs pattern s.
Proof.
  intros Hne. split.
  - intros Hneq. apply re_sub_go_present. by destruct pattern.
  - intros Hocc Heq. by apply re_sub_literal_fixed in Heq.
Qed.

End ReSub.

Section Ipfs.

(** No occurrence of [ipfs://] overlaps another one: a match cannot begin
    inside [a] and run into an occurrence that follows [a]. *)
Lemma ipfs_scheme_unbordered (a b : string) :
  a ≠ "" → String.prefix IPFS_SCHEME a = false →
  String.prefix IPFS_SCHEME (a +:+ IPFS_SCHEME +:+ b) = false.
Proof.
  intros Hne Ha. unfold IPFS_SCHEME in *.
  do 7 (destruct a as [|? a]; [try done;
    repeat (rewrite ?string_app_cons, ?string_app_nil_l; cbn [String.prefix];
            destruct (ascii_dec _ _); [subst|done]); try done|]).
  revert Ha. rewrite ?string_app_cons. cbn [String.prefix].
  repeat (destruct (ascii_dec _ _); [|done]). by destruct a.
Qed.

Lemma re_sub_go_ipfs_app (a b : string) :
  re_sub_go IPFS_SCHEME 0 (a +:+ IPFS_SCHEME +:+ b) =
  re_sub_go IPFS_SCHEME 0 a +:+ re_sub_go IPFS_SCHEME 0 b.
Proof.
  remember (String.length a) as n eqn:Hn. revert a Hn.
  induction (lt_wf n) as [n _ IH]; intros a ->.
  destruct a as [|c a]; [by rewrite string_app_nil_l, re_sub_go_here|].
  destruct (String.prefix IPFS_SCHEME (String c a)) eqn:E.
  - apply prefix_spec in E as [r Hr].
    assert (String.length r < String.length (String c a))%nat as Hlt
      by (rewrite Hr, string_length_app; cbn; lia).
    rewrite Hr, string_app_assoc, !re_sub_go_here by done.
    by eapply IH.
  - rewrite re_sub_go_next by done. rewrite !string_app_cons.
    rewrite re_sub_go_next.
    + f_equal. eapply IH; [|done]. cbn. lia.
    + rewrite <- string_app_cons. by apply ipfs_scheme_unbordered.
Qed.

End Ipfs.

Section Normalizer.

Lemma IPFS_SCHEME_nonempty : IPFS_SCHEME ≠ "".
Proof. done. Qed.

Lemma set_metadata_same (entry : Domain) : set_metadata entry (metadata entry) = entry.
Proof. by destruct entry. Qed.

Lemma has_scheme_occurs (entry : Domain) (path : string) :
  metadata entry = JStr path → has_scheme entry = true ↔ occurs IPFS_SCHEME path.
Proof. intros Hm. unfold has_scheme. rewrite Hm. apply contains_spec. Qed.

Lemma has_scheme_iff (entry : Domain) (path : string) :
  metadata entry = JStr path →
  has_scheme entry = true ↔ re_sub_literal IPFS_SCHEME path ≠ path.
Proof.
  intros Hm. rewrite re_sub_literal_changed by done. by apply has_scheme_occurs.
Qed.

Lemma format_step_string st entry path :
  metadata entry = JStr path →
  format_step st entry =
    Ok (st.1 ++ [with_hash entry path],
        st.2 ++ if has_scheme entry then [] else [entry]).
Proof.
  intros Hm. unfold format_step. rewrite Hm. cbv zeta.
  pose proof (has_scheme_iff entry path Hm) as Hiff.
  destruct (String.eqb_spec (re_sub_literal IPFS_SCHEME path) path) as [Heq|Hneq].
  - destruct (has_scheme entry); [by destruct (proj1 Hiff)|].
    unfold with_hash. rewrite Heq, <- Hm. by destruct entry.
  - rewrite (proj2 Hiff Hneq). by rewrite app_nil_r.
Qed.

Lemma format_loop_strings data paths st :
  metadata <$> data = JStr <$> paths →
  for_each format_step data st =
    Ok (st.1 ++ zip_with with_hash data paths,
        st.2 ++ filter (λ entry, has_scheme entry = false) data).
Proof.
  revert paths st. induction data as [|entry data IH]; intros paths st Hm.
  - cbn. rewrite !app_nil_r. by destruct st.
  - destruct paths as [|path paths]; [done|]. cbn in Hm. simplify_eq.
    cbn [for_each]. rewrite (format_step_string _ _ path) by done. cbn [bind].
    rewrite (IH paths) by done. cbn [fst snd zip_with]. rewrite filter_cons.
    rewrite <- !app_assoc. destruct (has_scheme entry).
    + by rewrite decide_False by done.
    + by rewrite decide_True by done.
Qed.

Lemma format_ipfs_hash_in_dicts_strings data paths :
  metadata <$> data = JStr <$> paths →
  format_ipfs_hash_in_dicts data =
    Ok (zip_with with_hash data paths, filter (λ entry, has_scheme entry = false) data).
Proof.
  intros Hm. unfold format_ipfs_hash_in_dicts. by rewrite (format_loop_strings _ paths).
Qed.

(** An entry without the scheme is left as it is. *)
Lemma with_hash_unresolved entry path :
  metadata entry = JStr path → has_scheme entry = false → with_hash entry path = entry.
Proof.
  intros Hm Hno. unfold with_hash.
  destruct (decide (re_sub_literal IPFS_SCHEME path = path)) as [->|Hneq].
  - rewrite <- Hm. by destruct entry.
  - apply (has_scheme_iff entry path Hm) in Hneq. congruence.
Qed.

Lemma unresolved_sublist data paths :
  metadata <$> data = JStr <$> paths →
  sublist (filter (λ entry, has_scheme entry = false) data) (zip_with with_hash data paths).
Proof.
  revert paths. induction data as [|entry data IH]; intros paths Hm; [constructor|].
  destruct paths as [|path paths]; [done|]. cbn in Hm. simplify_eq.
  rewrite filter_cons. cbn [zip_with]. case_decide.
  - rewrite with_hash_unresolved by done. apply sublist_skip. by apply IH.
  - apply sublist_cons. by apply IH.
Qed.

(** The fields of the domains that [with_hash] makes. *)
Lemma with_hash_fields (data : list Domain) (paths : list string) :
  length data = length paths →
  metadata <$> zip_with with_hash data paths =
    (λ path, JStr (re_sub_literal IPFS_SCHEME path)) <$> paths ∧
  other_fields <$> zip_with with_hash data paths = other_fields <$> data.
Proof.
  revert paths. induction data as [|entry data IH]; intros [|path paths] Hlen;
    try done.
  cbn in Hlen. destruct (IH paths) as [Hmeta Hother]; [lia|].
  cbn [zip_with fmap list_fmap]. split; f_equal; done.
Qed.

Lemma pointers_length (data : list Domain) (paths : list string) :
  metadata <$> data = JStr <$> paths → length data = length paths.
Proof. intros Hm. apply (f_equal length) in Hm. by rewrite !length_fmap in Hm. Qed.

End Normalizer.

(** C5 (as amended): on domains whose pointers are strings the normalizer
    returns, first, the whole input in its order, every domain with its
    other fields as they were and with its pointer without the
    occurrences of the scheme, and second, in the same order, the domains
    whose pointer has no occurrence of the scheme.  These are unchanged,
    and they are part of the first result as well: the second result is a
    sublist of the first, so the two results overlap instead of dividing
    the input.  [main] writes the second result to the no-metadata file;
    with [QUERY_INFURA] set it hands the whole first result to the fetch,
    and as shipped it fetches nothing and loads the metadata file. *)
Theorem format_ipfs_hash_in_dicts_routes (data : list Domain) (paths : list string) :
  metadata <$> data = JStr <$> paths →
  ∃ data' not_match,
    format_ipfs_hash_in_dicts data = Ok (data', not_match) ∧
    data' = zip_with with_hash data paths ∧
    metadata <$> data' = (λ path, JStr (re_sub_literal IPFS_SCHEME path)) <$> paths ∧
    other_fields <$> data' = other_fields <$> data ∧
    length data' = length data ∧
    not_match = filter (λ entry, has_scheme entry = false) data ∧
    sublist not_match data ∧
    sublist not_match data' ∧
    (∀ fetch stored,
       main_normalize_and_fetch true fetch stored data =
         (resolved ←! fetch data'; Ok (not_match, resolved))) ∧
    (∀ fetch stored,
       main_normalize_and_fetch QUERY_INFURA fetch stored data =
         (loaded ←! stored; Ok (not_match, loaded))).
Proof.
  intros Hm. pose proof (pointers_length data paths Hm) as Hlen.
  destruct (with_hash_fields data paths Hlen) as [Hmeta Hother].
  pose proof (format_ipfs_hash_in_dicts_strings data paths Hm) as Hrun.
  eexists _, _. split; [exact Hrun|].
  split_and!; try done.
  - rewrite length_zip_with. lia.
  - apply sublist_filter.
  - by apply unresolved_sublist.
  - intros fetch stored. unfold main_normalize_and_fetch. by rewrite Hrun.
  - intros fetch stored. unfold main_normalize_and_fetch. by rewrite Hrun.
Qed.

(** The theorem at one prefixed and one bare pointer: the bare one is in
    both results, and the fetch is called with both domains. *)
Lemma format_ipfs_hash_in_dicts_routes_witness :
  format_ipfs_hash_in_dicts [prefixed_entry; bare_entry] =
    Ok ([mkDomain "0x01" 1 "wilder.a" (JStr "QmABC123"); bare_entry], [bare_entry]) ∧
  main_normalize_and_fetch true Ok (Ok []) [prefixed_entry; bare_entry] =
    Ok ([bare_entry], [mkDomain "0x01" 1 "wilder.a" (JStr "QmABC123"); bare_entry]).
Proof.
  destruct (format_ipfs_hash_in_dicts_routes [prefixed_entry; bare_entry]
              ["ipfs://QmABC123"; "QmX"])
    as (data' & not_match & Hrun & -> & _ & _ & _ & -> & _ & _ & Hfetch & _);
    [reflexivity|].
  split; [by rewrite Hrun|]. by rewrite Hfetch.
Defined.

(** C5, the claim as stated fails: a domain with a bare pointer is in
    both results of the normalizer, and [main], when it fetches, asks the
    gateway for it like for the other one. *)
Lemma format_ipfs_hash_in_dicts_overlap :
  format_ipfs_hash_in_dicts [prefixed_entry; bare_entry] =
    Ok ([mkDomain "0x01" 1 "wilder.a" (JStr "QmABC123");
         mkDomain "0x02" 2 "wilder.b" (JStr "QmX")],
        [mkDomain "0x02" 2 "wilder.b" (JStr "QmX")]) ∧
  bare_entry = mkDomain "0x02" 2 "wilder.b" (JStr "QmX") ∧
  main_until_fetch good_gateway [prefixed_entry; bare_entry] [0; 1]%nat =
    Ok ([mkDomain "0x02" 2 "wilder.b" (JStr "QmX")],
        [mkDomain "0x01" 1 "wilder.a" (document_for 0);
         mkDomain "0x02" 2 "wilder.b" (document_for 1)]).
Proof. split_and!; vm_compute; reflexivity. Qed.

(** C10: the normalizer removes the scheme wherever it occurs in the
    pointer, and a domain goes to the no-metadata result exactly when its
    pointer has no occurrence of the scheme at all.  The domain with the
    pointer [xipfs://QmABC] is returned with the pointer [xQmABC] and is
    not among the no-metadata domains. *)
Theorem format_ipfs_hash_strips_every_occurrence
    (data : list Domain) (paths : list string) :
  metadata <$> data = JStr <$> paths →
  (∃ data' not_match,
     format_ipfs_hash_in_dicts data = Ok (data', not_match) ∧
     data' = zip_with with_hash data paths ∧
     metadata <$> data' = (λ path, JStr (re_sub_literal IPFS_SCHEME path)) <$> paths ∧
     other_fields <$> data' = other_fields <$> data ∧
     ∀ entry, entry ∈ not_match ↔
       entry ∈ data ∧ ∀ path, metadata entry = JStr path → ¬ occurs IPFS_SCHEME path) ∧
  (∀ path, re_sub_literal IPFS_SCHEME path = path ↔ ¬ occurs IPFS_SCHEME path) ∧
  (∀ a b, re_sub_literal IPFS_SCHEME (a +:+ IPFS_SCHEME +:+ b) =
          re_sub_literal IPFS_SCHEME a +:+ re_sub_literal IPFS_SCHEME b) ∧
  re_sub_literal IPFS_SCHEME "xipfs://QmABC" = "xQmABC" ∧
  format_ipfs_hash_in_dicts [mkDomain "0x03" 3 "wilder.c" (JStr "xipfs://QmABC")] =
    Ok ([mkDomain "0x03" 3 "wilder.c" (JStr "xQmABC")], []).
Proof.
  intros Hm. pose proof (pointers_length data paths Hm) as Hlen.
  destruct (with_hash_fields data paths Hlen) as [Hmeta Hother].
  split_and!.
  - eexists _, _. split; [by apply format_ipfs_hash_in_dicts_strings|].
    split_and!; try done. intros entry. rewrite list_elem_of_filter.
    split.
    + intros [Hno Hin]. split; [done|]. intros path Hpath Hocc.
      apply (has_scheme_occurs entry path Hpath) in Hocc. congruence.
    + intros [Hin Hno]. split; [|done].
      assert (∃ path, metadata entry = JStr path) as [path Hpath].
      { apply (list_elem_of_fmap_2 metadata) in Hin. rewrite Hm in Hin.
        apply list_elem_of_fmap in Hin as (path & ? & _). eauto. }
      apply not_true_is_false. intros Hs.
      apply (has_scheme_occurs entry path Hpath) in Hs. by apply (Hno path).
  - intros path. by apply re_sub_literal_fixed.
  - intros a b. apply re_sub_go_ipfs_app.
  - reflexivity.
  - vm_compute. reflexivity.
Qed.

(** The theorem at the pointer [xipfs://QmABC] behind a bare pointer: the
    first domain is the only no-metadata one, the second is treated as
    resolvable and its pointer becomes [xQmABC]. *)
Lemma format_ipfs_hash_strips_every_occurrence_witness :
  format_ipfs_hash_in_dicts [bare_entry; infix_entry] =
    Ok ([mkDomain "0x02" 2 "wilder.b" (JStr "QmX");
         mkDomain "0x03" 3 "wilder.c" (JStr "xQmABC")],
        [mkDomain "0x02" 2 "wilder.b" (JStr "QmX")]).
Proof.
  destruct (format_ipfs_hash_strips_every_occurrence [bare_entry; infix_entry]
              ["QmX"; "xipfs://QmABC"])
    as [(data' & not_match & Hrun & -> & _ & _ & Hnm) _]; [reflexivity|].
  rewrite Hrun. f_equal. f_equal.
  destruct not_match as [|entry rest].
  - exfalso. assert (bare_entry ∈ @nil Domain) as Hin; [|by apply elem_of_nil in Hin].
    apply Hnm. split; [left|]. intros path Hpath [a [b Hocc]].
    cbn in Hpath. simplify_eq.
  - pose proof (format_ipfs_hash_in_dicts_strings [bare_entry; infix_entry]
                  ["QmX"; "xipfs://QmABC"] eq_refl) as Hrun'.
    rewrite Hrun in Hrun'. by simplify_eq.
Defined.

(** ** FetchPipeline *)

Section Pipeline.
Variable gateway : nat → json → PostOutcome.
Variable data : list Domain.

Lemma complete_task_untouched completed st st' index :
  untouched data completed st →
  complete_task gateway st index = Ok st' →
  untouched data ({[index]} ∪ completed) st'.
Proof.
  intros Hun Hstep i Hi. unfold complete_task in Hstep.
  destruct (entries st !! index) as [entry|] eqn:He.
  - destruct (get_metadata _ entry) as [result|]; [|done]. cbn in Hstep. simplify_eq.
    cbn [entries]. rewrite list_lookup_insert_ne by set_solver. apply Hun. set_solver.
  - simplify_eq. apply Hun. set_solver.
Qed.

Lemma complete_task_resolved docs completed st index entry :
  untouched data completed st → resolved data docs completed st →
  index ∉ completed → data !! index = Some entry →
  document_of (gateway index (metadata entry)) = Some (docs index) →
  ∃ st', complete_task gateway st index = Ok st' ∧
         resolved data docs ({[index]} ∪ completed) st'.
Proof.
  intros Hun Hres Hnew Hentry Hdoc. unfold complete_task.
  rewrite (Hun index Hnew), Hentry. unfold get_metadata.
  destruct (gateway index (metadata entry)) as [response|]; [|done].
  cbn in Hdoc. rewrite Hdoc. cbn [bind]. eexists. split; [done|].
  intros i e He Hi. cbn [entries gathered].
  destruct (decide (i = index)) as [->|Hne].
  - simplify_eq. rewrite list_lookup_insert_eq, lookup_insert_eq; [done|].
    apply lookup_lt_is_Some. rewrite (Hun index Hnew). eauto.
  - rewrite list_lookup_insert_ne, lookup_insert_ne by done.
    apply Hres; [done|set_solver].
Qed.

Lemma run_resolved docs order completed st :
  (∀ i entry, data !! i = Some entry →
     document_of (gateway i (metadata entry)) = Some (docs i)) →
  NoDup order → (∀ i, i ∈ order → (i ∉ completed) ∧ (i < length data)%nat) →
  untouched data completed st → resolved data docs completed st →
  ∃ st', for_each (complete_task gateway) order st = Ok st' ∧
         resolved data docs (list_to_set order ∪ completed) st'.
Proof.
  intros Hdocs. revert completed st.
  induction order as [|index order IH]; intros completed st Hnodup Hfresh Hun Hres.
  - exists st. split; [done|]. intros i e He Hi. apply Hres; [done|set_solver].
  - apply NoDup_cons in Hnodup as [Hindex Hnodup].
    destruct (Hfresh index) as [Hnew Hlt]; [set_solver|].
    destruct (lookup_lt_is_Some_2 data index Hlt) as [entry Hentry].
    destruct (complete_task_resolved docs completed st index entry)
      as (st1 & Hstep & Hres1); eauto.
    destruct (IH ({[index]} ∪ completed) st1) as (st' & Hrun & Hres'); auto.
    + intros i Hi. destruct (Hfresh i); set_solver.
    + by eapply complete_task_untouched.
    + exists st'. cbn [for_each]. rewrite Hstep. cbn [bind]. split; [done|].
      intros i e He Hi. apply Hres'; [done|set_solver].
Qed.

Lemma list_from_indexed_dict_resolved (results : gmap nat Domain)
    (f : nat → Domain → Domain) (offset : nat) (l : list Domain) :
  (∀ j entry, l !! j = Some entry → results !! (offset + j)%nat = Some (f (offset + j)%nat entry)) →
  omap (λ index, results !! index) (seq offset (length l)) =
  imap (λ j, f (offset + j)%nat) l.
Proof.
  revert offset. induction l as [|entry l IH]; intros offset Hres; [done|].
  cbn [length seq]. rewrite imap_cons.
  change (omap ?g (?x :: ?xs)) with (from_option (λ y, y :: omap g xs) (omap g xs) (g x)).
  cbv beta. pose proof (Hres 0%nat entry eq_refl) as H0.
  rewrite Nat.add_0_r in H0 |- *. rewrite H0. cbn [from_option]. f_equal.
  rewrite (IH (S offset)).
  - apply imap_ext. intros j e _. cbn. f_equal. lia.
  - intros j e He. specialize (Hres (S j) e He).
    by replace (S offset + j)%nat with (offset + S j)%nat by lia.
Qed.

Lemma run_raises order completed st bad entry :
  data !! bad = Some entry →
  document_of (gateway bad (metadata entry)) = None →
  NoDup order → (∀ i, i ∈ order → i ∉ completed) → bad ∈ order →
  untouched data completed st →
  ∃ e, for_each (complete_task gateway) order st = Raise e.
Proof.
  intros Hentry Hdoc. revert completed st.
  induction order as [|index order IH]; intros completed st Hnodup Hfresh Hbad Hun.
  - set_solver.
  - apply NoDup_cons in Hnodup as [Hindex Hnodup]. cbn [for_each].
    destruct (complete_task gateway st index) as [st1|e] eqn:Hstep; [|by exists e].
    cbn [bind]. apply (IH ({[index]} ∪ completed)); auto.
    + intros i Hi. specialize (Hfresh i). set_solver.
    + apply elem_of_cons in Hbad as [->|Hbad]; [|done]. exfalso.
      unfold complete_task in Hstep.
      rewrite (Hun index) in Hstep by (apply Hfresh; set_solver).
      rewrite Hentry in Hstep. unfold get_metadata in Hstep.
      destruct (gateway index (metadata entry)) as [response|]; [|done].
      cbn in Hdoc. by rewrite Hdoc in Hstep.
    + by eapply complete_task_untouched.
Qed.

End Pipeline.

(** The run on a gateway that resolves every pointer, in the terms of the
    assignment of [get_metadata]. *)
Lemma get_all_metadata_resolved
    (gateway : nat → json → PostOutcome) (data : list Domain)
    (order : list nat) (docs : nat → json) :
  order ≡ₚ seq 0 (length data) →
  (∀ i entry, data !! i = Some entry →
     document_of (gateway i (metadata entry)) = Some (docs i)) →
  get_all_metadata gateway data order =
    Ok (imap (λ i entry, set_metadata entry (docs i)) data).
Proof.
  intros Hperm Hdocs. unfold get_all_metadata.
  destruct (run_resolved gateway data docs order ∅
              {| entries := data; gathered := ∅; pbar := 0 |})
    as (st' & Hrun & Hres); try done.
  - rewrite Hperm. apply NoDup_seq.
  - intros i Hi. rewrite Hperm, elem_of_seq in Hi. split; [set_solver|lia].
  - rewrite Hrun. cbn [bind]. f_equal. unfold list_from_indexed_dict.
    rewrite (list_from_indexed_dict_resolved _ (λ i entry, set_metadata entry (docs i))); [done|].
    intros j entry Hj. apply Hres; [done|].
    rewrite elem_of_union, elem_of_list_to_set, Hperm, elem_of_seq. left.
    apply lookup_lt_Some in Hj. lia.
Qed.

(** C1: whatever the order in which the fetches complete, as long as
    every task completes once and every fetch resolves to a document, the
    run returns a list of the length of the input whose i-th member is
    the i-th input domain with its [metadata] field holding the document
    resolved for it and its other fields as they were.  That each task
    puts the document in the [metadata] field of its own entry and
    returns that entry is read off [get_metadata], and that the tasks are
    in the order of the input off [get_all_metadata]; that the results
    come back in the order of the tasks is the behaviour of
    [aiometer.run_all] as modelled from the spec. *)
Theorem get_all_metadata_keeps_order
    (gateway : nat → json → PostOutcome) (data : list Domain)
    (order : list nat) (docs : nat → json) :
  order ≡ₚ seq 0 (length data) →
  (∀ i entry, data !! i = Some entry →
     document_of (gateway i (metadata entry)) = Some (docs i)) →
  ∃ results,
    get_all_metadata gateway data order = Ok results ∧
    results = imap (λ i entry, with_document entry (docs i)) data ∧
    length results = length data ∧
    ∀ i entry, data !! i = Some entry →
      ∃ result, results !! i = Some result ∧
        metadata result = docs i ∧
        id result = id entry ∧ indexId result = indexId entry ∧
        name result = name entry.
Proof.
  intros Hperm Hdocs. eexists. split; [by apply get_all_metadata_resolved|].
  split_and!.
  - done.
  - by rewrite length_imap.
  - intros i entry Hi. exists (with_document entry (docs i)).
    split; [|done]. rewrite list_lookup_imap, Hi. done.
Qed.

(** A fetch that the network fails, or whose body does not decode, ends
    the run with an exception, whatever the completion order. *)
Lemma get_all_metadata_aborts
    (gateway : nat → json → PostOutcome) (data : list Domain)
    (order : list nat) (bad : nat) (entry : Domain) :
  order ≡ₚ seq 0 (length data) →
  data !! bad = Some entry →
  document_of (gateway bad (metadata entry)) = None →
  ∃ e, get_all_metadata gateway data order = Raise e.
Proof.
  intros Hperm Hentry Hdoc. unfold get_all_metadata.
  destruct (run_raises gateway data order ∅
              {| entries := data; gathered := ∅; pbar := 0 |} bad entry)
    as [e He]; try done.
  - rewrite Hperm. apply NoDup_seq.
  - rewrite Hperm, elem_of_seq. apply lookup_lt_Some in Hentry. lia.
  - exists e. by rewrite He.
Qed.

(** The theorem at three domains of which the third is resolved first,
    and at the same domains resolved from the last to the first. *)
Lemma get_all_metadata_keeps_order_witness :
  get_all_metadata good_gateway hashed_abc [2; 0; 1]%nat =
    Ok [mkDomain "0x01" 1 "wilder.a" (JDict [("name", JStr "0")]);
        mkDomain "0x02" 2 "wilder.b" (JDict [("name", JStr "1")]);
        mkDomain "0x03" 3 "wilder.c" (JDict [("name", JStr "2")])] ∧
  get_all_metadata good_gateway hashed_abc [2; 1; 0]%nat =
    get_all_metadata good_gateway hashed_abc [2; 0; 1]%nat.
Proof.
  destruct (get_all_metadata_keeps_order good_gateway hashed_abc [2; 0; 1]%nat
              document_for) as (results & Hrun & -> & _).
  { cbn [length hashed_abc seq]. apply (Permutation_cons_append [0; 1]%nat 2%nat). }
  { intros i entry _. reflexivity. }
  destruct (get_all_metadata_keeps_order good_gateway hashed_abc [2; 1; 0]%nat
              document_for) as (results' & Hrun' & -> & _).
  { cbn [length hashed_abc seq]. symmetry. apply (reverse_Permutation [2; 1; 0]%nat). }
  { intros i entry _. reflexivity. }
  split; [by rewrite Hrun|]. by rewrite Hrun', Hrun.
Defined.

(** The status code of the answer plays no part in [get_metadata]. *)
Lemma get_metadata_any_status (post : json → PostOutcome) (data : Domain)
    (status : Z) (document : json) :
  post (metadata data) = Responded {| resp_status := status; resp_json := Some document |} →
  get_metadata post data = Ok (set_metadata data document).
Proof. intros Hpost. unfold get_metadata. by rewrite Hpost. Qed.

(** C2, at the failing input: every fetch is answered with status 500 and
    a JSON error body; the run does not fail, and every result holds the
    error body as its [metadata]. *)
Theorem get_all_metadata_non_2xx_substituted :
  get_all_metadata failing_gateway hashed_abc [0; 1; 2]%nat =
    Ok ((λ entry, set_metadata entry error_document) <$> hashed_abc) ∧
  Forall (λ result, metadata result = error_document)
    ((λ entry, set_metadata entry error_document) <$> hashed_abc).
Proof.
  split.
  - vm_compute. reflexivity.
  - repeat constructor.
Qed.

(** The limits handed to [aiometer.run_all] are the literals 50 and 100;
    the module constant [INFURA_MAX_REQUESTS_PER_SEC] is not among them. *)
Remark run_all_limits :
  max_per_second = 50 ∧ max_at_once = 100 ∧
  max_per_second ≠ INFURA_MAX_REQUESTS_PER_SEC.
Proof. by split_and!. Qed.

(** ** GroupPartitioner *)

Section Partitioner.

Lemma at_dollar_has_dot (s : string) : at_dollar s = true → has_dot s = false.
Proof.
  destruct s as [|c [|??]]; try done. cbn.
  intros Hc%Ascii.eqb_eq. by subst.
Qed.

Lemma match_segment_spec (s : string) :
  match_segment s = true ↔ s ≠ "" ∧ has_dot s = false.
Proof.
  induction s as [|c s IH]; [by split; [|intros []]|].
  cbn [match_segment has_dot].
  rewrite andb_true_iff, orb_true_iff, negb_true_iff, orb_false_iff, IH.
  split.
  - intros [Hc [Hend|[_ Hs]]]; auto using at_dollar_has_dot.
  - intros [_ [Hc Hs]]. split; [done|]. destruct s; [by left|by right].
Qed.

Lemma match_group_here_spec (domain_group s : string) :
  match_group_here domain_group s = true ↔
  ∃ segment, s = domain_group +:+ "." +:+ segment ∧
             segment ≠ "" ∧ has_dot segment = false.
Proof.
  revert s. induction domain_group as [|a g IH]; intros [|b s]; cbn [match_group_here].
  - split; [done|]. by intros (seg & ? & _).
  - rewrite andb_true_iff, match_segment_spec, Ascii.eqb_eq. split.
    + intros [-> Hseg]. by exists s.
    + intros (seg & Hs & Hseg). rewrite string_app_nil_l, string_app_cons in Hs.
      by simplify_eq.
  - split; [done|]. by intros (seg & ? & _).
  - rewrite andb_true_iff, IH, Ascii.eqb_eq. split.
    + intros [-> (seg & -> & Hseg)]. by exists seg.
    + intros (seg & Hs & Hseg). rewrite string_app_cons in Hs. simplify_eq.
      split; [done|]. by exists seg.
Qed.

(** What the search accepts: the names that end with the group, a dot
    and one non-empty segment without a dot, whatever comes before. *)
Lemma re_search_group_spec (domain_group s : string) :
  re_search_group domain_group s = true ↔
  ∃ before segment, s = before +:+ domain_group +:+ "." +:+ segment ∧
                    segment ≠ "" ∧ has_dot segment = false.
Proof.
  induction s as [|c s IH]; cbn [re_search_group]; rewrite orb_true_iff, match_group_here_spec.
  - split.
    + intros [(seg & Hs & Hseg)|]; [|done]. by exists "", seg.
    + intros (before & seg & Hs & Hseg). left. exists seg. split; [|done].
      destruct before; [done|]. by rewrite string_app_cons in Hs.
  - rewrite IH. split.
    + intros [(seg & Hs & Hseg)|(before & seg & -> & Hseg)].
      * by exists "", seg.
      * by exists (String c before), seg.
    + intros (before & seg & Hs & Hseg). destruct before as [|c' before].
      * left. by exists seg.
      * right. rewrite string_app_cons in Hs. simplify_eq. by exists before, seg.
Qed.

Lemma re_search_group_child (domain_group segment : string) :
  segment ≠ "" → has_dot segment = false →
  re_search_group domain_group (domain_group +:+ "." +:+ segment) = true.
Proof. intros Hne Hdot. apply re_search_group_spec. by exists "", segment. Qed.

Lemma re_search_group_self (domain_group : string) :
  re_search_group domain_group domain_group = false.
Proof.
  apply not_true_is_false. intros (before & segment & Hs & _)%re_search_group_spec.
  apply (f_equal String.length) in Hs. rewrite !string_length_app in Hs. cbn in Hs. lia.
Qed.

End Partitioner.

(** C7, at the failing input: a domain whose name ends with the group, a
    dot and one segment is selected for the group although more comes
    before the group in its name, so that it is no child of the group. *)
Theorem separate_industries_selects_suffix_match :
  separate_industries_into_files [stray_entry] ["wilder.wheels.genesis"] =
    [("wilder.wheels.genesis", [group_entry stray_entry])] ∧
  ∀ segment, name stray_entry ≠ "wilder.wheels.genesis" +:+ "." +:+ segment.
Proof.
  split.
  - vm_compute. reflexivity.
  - intros segment. unfold stray_entry. cbn [name]. discriminate.
Qed.

(** ** Flattener and the attribute pre-pass *)

Section Flatten.

Lemma flatten_items_fold separator pre (d acc : Dict) :
  (fix items (d : Dict) (out : Dict) {struct d} : Dict :=
     match d with
     | [] => out
     | (key2, val2) :: d' => items d' (flatten_item separator pre key2 val2 out)
     end) d acc =
  fold_left (λ out kv, flatten_item separator pre kv.1 kv.2 out) d acc.
Proof.
  revert acc. induction d as [|[k v] d IH]; intros acc; [done|].
  cbn [fold_left fst snd]. apply IH.
Qed.

Lemma flatten_item_dict separator prefix key kv d out :
  flatten_item separator prefix key (JDict (kv :: d)) out =
  dict_update out (flatten (kv :: d) separator (prefix +:+ key +:+ separator)).
Proof.
  cbn [flatten_item]. destruct kv as [k v]. by rewrite flatten_items_fold.
Qed.

Lemma flatten_elements_fold separator prefix key value start (l : list json) out :
  (fix elements (index : nat) (l : list json) (out : Dict) {struct l} : Dict :=
     match l with
     | [] => out
     | sublist :: l' =>
         elements (S index) l'
           match sublist with
           | JDict ((_ :: _) as d) =>
               let deeper :=
                 (fix items (d : Dict) (acc : Dict) {struct d} : Dict :=
                    match d with
                    | [] => acc
                    | (key2, val2) :: d' =>
                        items d'
                          (flatten_item separator
                             (prefix +:+ key +:+ separator +:+ pretty index +:+ separator)
                             key2 val2 acc)
                    end) d [] in
               dict_update out deeper
           | _ => dict_set out (prefix +:+ key +:+ separator +:+ pretty index) value
           end
     end) start l out =
  fold_left (flatten_element separator prefix key value) (enumerate start l) out.
Proof.
  revert start out. induction l as [|sublist l IH]; intros start out; [done|].
  change (enumerate start (sublist :: l))
    with ((start, sublist) :: enumerate (S start) l).
  cbn [fold_left]. rewrite <- IH. f_equal.
  unfold flatten_element. cbn [fst snd].
  destruct sublist as [| | | | |[|[k v] d]]; try done.
  cbv zeta. by rewrite flatten_items_fold.
Qed.

Lemma flatten_item_list separator prefix key x l out :
  flatten_item separator prefix key (JList (x :: l)) out =
  fold_left (flatten_element separator prefix key (JList (x :: l)))
    (enumerate 1 (x :: l)) out.
Proof.
  rewrite <- flatten_elements_fold. reflexivity.
Qed.

Lemma flatten_item_leaf separator prefix key value out :
  is_leaf value = true →
  flatten_item separator prefix key value out = dict_set out (prefix +:+ key) value.
Proof. by destruct value as [| | | |[|??]|[|??]]. Qed.

Lemma flatten_app d1 d2 separator prefix :
  flatten (d1 ++ d2) separator prefix =
  fold_left (λ out kv, flatten_item separator prefix kv.1 kv.2 out) d2
    (flatten d1 separator prefix).
Proof. unfold flatten. by rewrite fold_left_app. Qed.

End Flatten.

Section Keys.

Lemma dict_set_fresh (d : Dict) key value :
  key ∉ d.*1 → dict_set d key value = d ++ [(key, value)].
Proof.
  induction d as [|[k v] d IH]; intros Hfresh; [done|].
  cbn [dict_set]. cbn in Hfresh. apply not_elem_of_cons in Hfresh as [Hne Hfresh].
  destruct (String.eqb_spec k key) as [->|_]; [done|]. cbn. by rewrite IH.
Qed.

Lemma pretty_N_go_has_dot (x : N) (s : string) :
  has_dot (pretty_N_go x s) = has_dot s.
Proof.
  revert s. induction (N.lt_wf_0 x) as [x _ IH]; intros s.
  destruct (decide (x = 0)%N) as [->|Hne]; [by rewrite pretty_N_go_0|].
  rewrite pretty_N_go_step by lia. rewrite IH by (apply N.div_lt; lia).
  cbn [has_dot]. unfold pretty_N_char. by repeat case_match.
Qed.

Lemma pretty_nat_has_dot (n : nat) : has_dot (pretty n) = false.
Proof.
  unfold pretty, pretty_nat, pretty, pretty_N. case_decide; [done|].
  by rewrite pretty_N_go_has_dot.
Qed.

Lemma split_at_dot (a1 a2 t1 t2 : string) :
  has_dot a1 = false → has_dot a2 = false →
  a1 +:+ "." +:+ t1 = a2 +:+ "." +:+ t2 → a1 = a2.
Proof.
  revert a2. induction a1 as [|c a1 IH]; intros [|c2 a2] H1 H2 Heq; try done.
  - rewrite string_app_nil_l, !string_app_cons in Heq. by simplify_eq.
  - rewrite string_app_nil_l, !string_app_cons in Heq. by simplify_eq.
  - rewrite !string_app_cons in Heq. simplify_eq. cbn in H1, H2.
    apply orb_false_iff in H1 as [_ H1]. apply orb_false_iff in H2 as [_ H2].
    f_equal. eauto.
Qed.

Lemma indexed_key_inj (prefix key t1 t2 : string) (i j : nat) :
  (prefix +:+ key +:+ "." +:+ pretty i +:+ ".") +:+ t1 =
  (prefix +:+ key +:+ "." +:+ pretty j +:+ ".") +:+ t2 → i = j.
Proof.
  rewrite !string_app_assoc. intros Heq. do 3 apply String.app_inj in Heq.
  apply split_at_dot in Heq; auto using pretty_nat_has_dot.
  by apply (inj pretty).
Qed.

End Keys.

Section FlattenLists.

(** A list without a non-empty dict among its elements: every element
    gets the key [prefix.key.index] and the whole list as its value. *)
Lemma flatten_elements_plain separator prefix key value start (l : list json) out :
  Forall (λ x, ∀ kv d, x ≠ JDict (kv :: d)) l →
  (∀ i, (start ≤ i)%nat → prefix +:+ key +:+ separator +:+ pretty i ∉ out.*1) →
  fold_left (flatten_element separator prefix key value) (enumerate start l) out =
  out ++ ((λ i, (prefix +:+ key +:+ separator +:+ pretty i, value)) <$> seq start (length l)).
Proof.
  intros Hplain. revert start out.
  induction Hplain as [|x l Hx _ IH]; intros start out Hfresh.
  - cbn. by rewrite app_nil_r.
  - change (enumerate start (x :: l)) with ((start, x) :: enumerate (S start) l).
    cbn [fold_left length seq fmap list_fmap].
    assert (flatten_element separator prefix key value out (start, x) =
            out ++ [(prefix +:+ key +:+ separator +:+ pretty start, value)]) as ->.
    { unfold flatten_element. cbn [fst snd]. rewrite <- dict_set_fresh by auto.
      destruct x as [| | | | |[|kv d]]; try done. by destruct (Hx kv d). }
    rewrite IH.
    + by rewrite <- app_assoc.
    + intros i Hi. rewrite fmap_app, elem_of_app. intros [Hin|Hin].
      * by apply (Hfresh i); [lia|].
      * cbn in Hin. apply list_elem_of_singleton in Hin.
        rewrite <- !string_app_assoc in Hin. apply String.app_inj in Hin.
        apply (inj pretty) in Hin. lia.
Qed.

(** A list of single-entry dicts [{trait: value}] with leaf values: the
    [index]-th contributes the key [prefix.key.index.trait]. *)
Lemma flatten_elements_collapsed prefix key value start (l : list (string * json)) out :
  Forall (λ tv, is_leaf tv.2 = true) l →
  (∀ i t, (start ≤ i)%nat →
     (prefix +:+ key +:+ "." +:+ pretty i +:+ ".") +:+ t ∉ out.*1) →
  fold_left (flatten_element "." prefix key value) (enumerate start (collapsed <$> l)) out =
  out ++ imap (λ j tv, ((prefix +:+ key +:+ "." +:+ pretty (start + j)%nat +:+ ".") +:+ tv.1, tv.2)) l.
Proof.
  intros Hleaf. revert start out.
  induction Hleaf as [|[t v] l Hv _ IH]; intros start out Hfresh.
  - cbn. by rewrite app_nil_r.
  - rewrite fmap_cons.
    change (enumerate start (collapsed (t, v) :: (collapsed <$> l)))
      with ((start, collapsed (t, v)) :: enumerate (S start) (collapsed <$> l)).
    cbn [fold_left]. rewrite imap_cons. cbn [fst snd] in *.
    assert (flatten_element "." prefix key value out (start, collapsed (t, v)) =
            out ++ [((prefix +:+ key +:+ "." +:+ pretty start +:+ ".") +:+ t, v)]) as ->.
    { unfold flatten_element, collapsed. cbn [fst snd]. unfold flatten. cbn [fold_left fst snd].
      rewrite flatten_item_leaf by done. cbn [dict_set dict_update fold_left fst snd].
      apply dict_set_fresh. auto. }
    rewrite IH.
    + rewrite <- app_assoc, Nat.add_0_r. cbn [app]. do 2 f_equal.
      apply imap_ext. intros j tv _. cbn.
      by replace (start + S j)%nat with (S (start + j)) by lia.
    + intros i t' Hi. rewrite fmap_app, elem_of_app. intros [Hin|Hin].
      * by apply (Hfresh i t'); [lia|].
      * cbn in Hin. apply list_elem_of_singleton in Hin.
        apply indexed_key_inj in Hin. lia.
Qed.

End FlattenLists.

Section Sorting.
Context {A : Type}.
Implicit Types (x : string * A) (l : list (string * A)).

Lemma insert_by_key_perm x l : insert_by_key x l ≡ₚ x :: l.
Proof.
  induction l as [|y l IH]; [done|]. cbn [insert_by_key].
  destruct (String.leb x.1 y.1); [done|]. by rewrite IH, Permutation_swap.
Qed.

Lemma sorted_by_key_perm l : sorted_by_key l ≡ₚ l.
Proof.
  induction l as [|x l IH]; [done|]. cbn [sorted_by_key foldr].
  rewrite insert_by_key_perm. by f_equiv.
Qed.

Lemma insert_by_key_sorted x l :
  Sorted key_le l → Sorted key_le (insert_by_key x l).
Proof.
  induction 1 as [|y l Hl IH Hhd]; [repeat constructor|].
  cbn [insert_by_key]. destruct (String.leb x.1 y.1) eqn:E.
  - repeat constructor; done.
  - constructor; [done|].
    assert (key_le y x).
    { unfold key_le. destruct (String.leb_total x.1 y.1); congruence. }
    destruct Hhd as [|z l Hz]; cbn [insert_by_key]; [by constructor|].
    destruct (String.leb x.1 z.1); by constructor.
Qed.

Lemma sorted_by_key_sorted l : Sorted key_le (sorted_by_key l).
Proof.
  induction l as [|x l IH]; [constructor|]. by apply insert_by_key_sorted.
Qed.

End Sorting.

Section SortingPayload.
Context {A B : Type} (g : string * A → B).

Lemma insert_by_key_fmap (x : string * A) (l : list (string * A)) :
  insert_by_key (x.1, g x) ((λ y, (y.1, g y)) <$> l) =
  (λ y, (y.1, g y)) <$> insert_by_key x l.
Proof.
  induction l as [|y l IH]; [done|]. cbn [insert_by_key fmap list_fmap fst].
  destruct (String.leb x.1 y.1); [done|]. cbn [fmap list_fmap]. f_equal. apply IH.
Qed.

Lemma sorted_by_key_fmap (l : list (string * A)) :
  sorted_by_key ((λ y, (y.1, g y)) <$> l) = (λ y, (y.1, g y)) <$> sorted_by_key l.
Proof.
  induction l as [|x l IH]; [done|]. cbn [sorted_by_key foldr fmap list_fmap].
  fold (sorted_by_key ((λ y, (y.1, g y)) <$> l)). rewrite IH. apply insert_by_key_fmap.
Qed.

End SortingPayload.

Section PrePass.

Lemma map_exc_keys (attrs : list (string * json)) :
  map_exc (λ d, key ←! trait_type_of d; Ok (key, d)) (attribute <$> attrs) =
  Ok ((λ tv, (tv.1, attribute tv)) <$> attrs).
Proof.
  induction attrs as [|[t v] attrs IH]; [done|].
  cbn [fmap list_fmap map_exc]. change (list_fmap _ _ attribute attrs) with (attribute <$> attrs).
  by rewrite IH.
Qed.

Lemma map_exc_collapse (attrs : list (string * json)) :
  map_exc collapse (attribute <$> attrs) = Ok (collapsed <$> attrs).
Proof.
  induction attrs as [|[t v] attrs IH]; [done|].
  cbn [fmap list_fmap map_exc]. change (list_fmap _ _ attribute attrs) with (attribute <$> attrs).
  by rewrite IH.
Qed.

Lemma transform_attribute_list_sorts (attrs : list (string * json)) :
  transform_attribute_list (JList (attribute <$> attrs)) =
  Ok (JList (collapsed <$> sorted_by_key attrs)).
Proof.
  unfold transform_attribute_list. cbn [iterate bind]. rewrite map_exc_keys. cbn [bind].
  rewrite (sorted_by_key_fmap attribute), <- list_fmap_compose.
  change (snd ∘ _) with attribute. by rewrite map_exc_collapse.
Qed.

End PrePass.

(** C6: a non-empty list under [key] is flattened element by element,
    the index counted from 1.  An element that is a non-empty dict is
    flattened under [prefix key separator index separator]; any other
    element puts the key [prefix key separator index] into the output,
    and the value stored under it is the whole list.  So a list without
    a non-empty dict among its elements gives one key per index, each
    holding the whole list. *)
Theorem flatten_sequence_rule (separator prefix key : string)
    (x : json) (l : list json) (out : Dict) :
  flatten_item separator prefix key (JList (x :: l)) out =
    fold_left (flatten_element separator prefix key (JList (x :: l)))
      (enumerate 1 (x :: l)) out ∧
  (Forall (λ e, ∀ kv d, e ≠ JDict (kv :: d)) (x :: l) →
   flatten [(key, JList (x :: l))] separator prefix =
     (λ i, (prefix +:+ key +:+ separator +:+ pretty i, JList (x :: l)))
       <$> seq 1 (length (x :: l))) ∧
  flatten [("a", JStr "b");
           ("c", JList [JDict [("d", JStr "e")]; JDict [("f", JStr "g")]])] "." "" =
    [("a", JStr "b"); ("c.1.d", JStr "e"); ("c.2.f", JStr "g")].
Proof.
  split_and!.
  - apply flatten_item_list.
  - intros Hplain. unfold flatten. cbn [fold_left fst snd].
    rewrite flatten_item_list, flatten_elements_plain; [done|done|].
    intros i _. cbn. apply not_elem_of_nil.
  - vm_compute. reflexivity.
Qed.

(** The theorem at a list of two scalars. *)
Lemma flatten_sequence_rule_witness :
  flatten [("c", JList [JNum 1; JStr "x"])] "." "" =
    [("c.1", JList [JNum 1; JStr "x"]); ("c.2", JList [JNum 1; JStr "x"])].
Proof.
  destruct (flatten_sequence_rule "." "" "c" (JNum 1) [JStr "x"] []) as (_ & Hplain & _).
  rewrite Hplain; [reflexivity|]. repeat constructor; discriminate.
Defined.

(** C8 (as amended): the pre-pass reads the trait name under the key
    [trait_type].  On attributes [{trait_type: t, value: v}] it sorts the
    pairs by trait name, ascending, and turns each into [{t: v}]; with
    leaf values the flattened document has, in this order, the keys
    [attributes.1.t1], [attributes.2.t2], ... for the sorted trait names,
    each with its value.  On the whole group entry, as in [main], the
    keys carry the prefix [metadata.]. *)
Theorem attributes_prepass_sorted (attrs : list (string * json)) :
  Forall (λ tv, is_leaf tv.2 = true) attrs → attrs ≠ [] →
  transform_attribute_list (JList (attribute <$> attrs)) =
    Ok (JList (collapsed <$> sorted_by_key attrs)) ∧
  flatten [("attributes", JList (collapsed <$> sorted_by_key attrs))] "." "" =
    imap (λ j tv, ("attributes." +:+ pretty (S j) +:+ "." +:+ tv.1, tv.2))
      (sorted_by_key attrs) ∧
  sorted_by_key attrs ≡ₚ attrs ∧
  Sorted key_le (sorted_by_key attrs) ∧
  flatten_entry (zeta_alpha_entry "trait_type") =
    Ok [("tokenId", JStr "0x01"); ("domain", JStr "wilder.wheels.genesis.1");
        ("metadata.attributes.1.Alpha", JNum 2);
        ("metadata.attributes.2.Zeta", JNum 1)].
Proof.
  intros Hleaf Hne. split_and!.
  - apply transform_attribute_list_sorts.
  - pose proof (sorted_by_key_perm attrs) as Hperm.
    rewrite <- Hperm in Hleaf.
    destruct (sorted_by_key attrs) as [|tv rest] eqn:Hsorted.
    { apply Permutation_nil_l in Hperm. by subst. }
    unfold flatten. cbn [fold_left fst snd fmap list_fmap].
    rewrite flatten_item_list.
    etrans; [apply (flatten_elements_collapsed "" "attributes" _ 1 (tv :: rest) [])|].
    + done.
    + intros i t _. cbn. apply not_elem_of_nil.
    + cbn [app]. apply imap_ext. intros j tv' _. cbn [Nat.add].
      by rewrite !string_app_assoc.
  - apply sorted_by_key_perm.
  - apply sorted_by_key_sorted.
  - vm_compute. reflexivity.
Qed.

(** The theorem at the attributes Zeta = 1 and Alpha = 2. *)
Lemma attributes_prepass_sorted_witness :
  flatten [("attributes",
            JList (collapsed <$> sorted_by_key [("Zeta", JNum 1); ("Alpha", JNum 2)]))]
    "." "" =
  [("attributes.1.Alpha", JNum 2); ("attributes.2.Zeta", JNum 1)].
Proof.
  destruct (attributes_prepass_sorted [("Zeta", JNum 1); ("Alpha", JNum 2)])
    as (_ & Hflat & _).
  - repeat constructor.
  - discriminate.
  - rewrite Hflat. reflexivity.
Defined.

(** C8, the claim as stated fails: attributes that name the trait under
    [traitType] make the pre-pass raise a [KeyError]. *)
Lemma attributes_prepass_traitType_raises :
  transform_attribute_list (zeta_alpha "traitType") = Raise (KeyError "trait_type") ∧
  flatten_entry (zeta_alpha_entry "traitType") = Raise (KeyError "trait_type").
Proof. split; vm_compute; reflexivity. Qed.

(* ================================================================= *)
(** * Further properties *)

(** ** The collector on any source *)

Section CollectorRuns.
Variable post : Z → GraphResponse.

Lemma pages_before_S (n : nat) :
  pages_before post (S n) = pages_before post n ++ domains (post (1000 * Z.of_nat n)).
Proof.
  unfold pages_before. rewrite seq_S, fmap_app, concat_app. cbn.
  by rewrite app_nil_r.
Qed.

(** The loop, started at page [k] with the pages before it gathered,
    walks the non-empty pages up to page [n]. *)
Lemma get_all_domains_loop_walk (n k fuel : nat) :
  (∀ j, (k ≤ j < n)%nat →
     status_code (post (1000 * Z.of_nat j)) = 200 ∧
     domains (post (1000 * Z.of_nat j)) ≠ []) →
  (k ≤ n)%nat →
  get_all_domains_loop post (n - k + fuel) (1000 * Z.of_nat k) (pages_before post k) =
  get_all_domains_loop post fuel (1000 * Z.of_nat n) (pages_before post n).
Proof.
  intros Hpages Hle. remember (n - k)%nat as m eqn:Hm. revert k Hm Hpages Hle.
  induction m as [|m IH]; intros k Hm Hpages Hle.
  - assert (k = n) as -> by lia. done.
  - destruct (Hpages k) as [Hstatus Hne]; [lia|].
    cbn [Nat.add get_all_domains_loop]. rewrite decide_True by done.
    rewrite decide_False.
    + replace (1000 * Z.of_nat k + 1000) with (1000 * Z.of_nat (S k)) by lia.
      rewrite <- pages_before_S. apply IH; [lia| |lia].
      intros j Hj. apply Hpages. lia.
    + destruct (domains (post (1000 * Z.of_nat k))); [done|cbn; lia].
Qed.

End CollectorRuns.

(** X1: the collector asks for the pages with the cursors 0, 1000, 2000,
    ... and stops at the first page that comes back empty: its result is
    the concatenation of the pages before that one, whatever the source
    holds beyond it. *)
Theorem get_all_domains_until_empty_page (post : Z → GraphResponse) (n extra : nat) :
  (∀ j, (j < n)%nat →
     status_code (post (1000 * Z.of_nat j)) = 200 ∧
     domains (post (1000 * Z.of_nat j)) ≠ []) →
  status_code (post (1000 * Z.of_nat n)) = 200 →
  domains (post (1000 * Z.of_nat n)) = [] →
  get_all_domains post (S n + extra) = Some (Ok (pages_before post n)).
Proof.
  intros Hpages Hstatus Hempty. unfold get_all_domains.
  pose proof (get_all_domains_loop_walk post n 0 (S extra)) as Hwalk.
  rewrite Nat.sub_0_r in Hwalk. change (1000 * Z.of_nat 0) with 0 in Hwalk.
  replace (S n + extra)%nat with (n + S extra)%nat by lia.
  change (@nil Domain) with (pages_before post 0). rewrite Hwalk.
  - cbn [get_all_domains_loop]. rewrite decide_True by done.
    rewrite Hempty. by rewrite decide_True by (cbn; lia).
  - intros j Hj. apply Hpages. lia.
  - lia.
Qed.

(** The theorem at a source of three domains: one page, then an empty one. *)
Lemma get_all_domains_until_empty_page_witness :
  get_all_domains (graph_source dense_store) 2 =
    Some (Ok (pages_before (graph_source dense_store) 1)).
Proof.
  apply (get_all_domains_until_empty_page (graph_source dense_store) 1 0).
  - intros j Hj. assert (j = 0%nat) as -> by lia. split; [reflexivity|discriminate].
  - reflexivity.
  - reflexivity.
Defined.

(** X2: when a page request is answered with a status other than 200,
    the collector raises; the exception carries that status and the
    cursor of the failed request, and the pages gathered before are
    dropped. *)
Theorem get_all_domains_query_failed (post : Z → GraphResponse) (n extra : nat) :
  (∀ j, (j < n)%nat →
     status_code (post (1000 * Z.of_nat j)) = 200 ∧
     domains (post (1000 * Z.of_nat j)) ≠ []) →
  status_code (post (1000 * Z.of_nat n)) ≠ 200 →
  get_all_domains post (S n + extra) =
    Some (Raise (QueryFailed (status_code (post (1000 * Z.of_nat n))) (1000 * Z.of_nat n))).
Proof.
  intros Hpages Hstatus. unfold get_all_domains.
  pose proof (get_all_domains_loop_walk post n 0 (S extra)) as Hwalk.
  rewrite Nat.sub_0_r in Hwalk. change (1000 * Z.of_nat 0) with 0 in Hwalk.
  replace (S n + extra)%nat with (n + S extra)%nat by lia.
  change (@nil Domain) with (pages_before post 0). rewrite Hwalk.
  - cbn [get_all_domains_loop]. by rewrite decide_False by done.
  - intros j Hj. apply Hpages. lia.
  - lia.
Qed.

(** The theorem at a source that answers its second page with 502. *)
Lemma get_all_domains_query_failed_witness :
  get_all_domains failing_source 2 = Some (Raise (QueryFailed 502 1000)).
Proof.
  apply (get_all_domains_query_failed failing_source 1 0).
  - intros j Hj. assert (j = 0%nat) as -> by lia. split; [reflexivity|discriminate].
  - discriminate.
Defined.

(** X3: the loop has no bound of its own: on a source that answers every
    request with status 200 and a non-empty page it never returns. *)
Theorem get_all_domains_never_returns (post : Z → GraphResponse) (fuel : nat) :
  (∀ j : nat,
     status_code (post (1000 * Z.of_nat j)) = 200 ∧
     domains (post (1000 * Z.of_nat j)) ≠ []) →
  get_all_domains post fuel = None.
Proof.
  intros Hpages. unfold get_all_domains.
  pose proof (get_all_domains_loop_walk post fuel 0 0) as Hwalk.
  rewrite Nat.sub_0_r, Nat.add_0_r in Hwalk. change (1000 * Z.of_nat 0) with 0 in Hwalk.
  change (@nil Domain) with (pages_before post 0). rewrite Hwalk; [done| |lia].
  intros j _. apply Hpages.
Qed.

(** The theorem at a source that ignores the cursor. *)
Lemma get_all_domains_never_returns_witness :
  get_all_domains stuck_source 5 = None.
Proof.
  apply (get_all_domains_never_returns stuck_source 5).
  intros j. split; [reflexivity|discriminate].
Defined.

(** ** The total and the collection *)

Section Total.

Lemma ascending_le_last (stored : list Domain) (d last : Domain) :
  ascending (stored ++ [last]) → d ∈ stored ++ [last] → indexId d ≤ indexId last.
Proof.
  unfold ascending. induction stored as [|x stored IH]; intros Hsorted Hin.
  - apply list_elem_of_singleton in Hin. by subst.
  - cbn in Hsorted. apply StronglySorted_inv in Hsorted as [Hsorted Hx].
    cbn in Hin. apply elem_of_cons in Hin as [->|Hin]; [|by apply IH].
    assert (indexId x < indexId last); [|lia].
    eapply Forall_forall in Hx; [exact Hx|]. apply elem_of_app. right. left.
Qed.

End Total.

(** X4: on a non-empty source kept in ascending order, [get_total_domains]
    returns the greatest index id; it is the number of stored domains
    when the index ids are 1, ..., N. *)
Theorem get_total_domains_greatest (stored : list Domain) :
  ascending stored → stored ≠ [] →
  ∃ total,
    get_total_domains (graph_total_source stored) = Total total ∧
    (∃ d, d ∈ stored ∧ indexId d = total) ∧
    (∀ d, d ∈ stored → indexId d ≤ total) ∧
    (dense stored → total = Z.of_nat (length stored)).
Proof.
  intros Hsorted Hne.
  destruct (exists_last Hne) as (front & last & ->).
  exists (indexId last). split_and!.
  - unfold get_total_domains, graph_total_source. cbn [status_code domains].
    rewrite decide_True by done. by rewrite reverse_snoc.
  - exists last. split; [|done]. apply elem_of_app. right. left.
  - intros d Hd. by apply (ascending_le_last front).
  - intros Hdense. rewrite length_app. cbn [length].
    rewrite (Hdense (length front) last).
    + f_equal. lia.
    + by rewrite lookup_app_r, Nat.sub_diag by lia.
Qed.

(** The theorem at a source of three domains with the index ids 1, 2, 3. *)
Lemma get_total_domains_greatest_witness :
  get_total_domains (graph_total_source dense_store) = Total 3.
Proof.
  destruct (get_total_domains_greatest dense_store) as (total & Hrun & _ & _ & Hdense).
  - unfold ascending, dense_store. repeat constructor; cbn; lia.
  - discriminate.
  - rewrite Hrun, Hdense; [reflexivity|].
    intros [|[|[|i]]] d Hd; cbn in Hd; by simplify_eq.
Defined.

(** ** More on the validator *)

Section ValidatorCount.

Lemma dup_loop_count (names : list string) (seen : gset string) (duplicated : list string) :
  (length (fold_left dup_step names (seen, duplicated)).2 +
   size ((fold_left dup_step names (seen, duplicated)).1) =
   length duplicated + size seen + length names)%nat.
Proof.
  revert seen duplicated.
  induction names as [|x names IH]; intros seen duplicated; cbn [fold_left length].
  - cbn. lia.
  - destruct (dup_step (seen, duplicated) x) as [seen' duplicated'] eqn:E.
    rewrite IH. unfold dup_step in E. cbn [fst snd] in E. case_decide; simplify_eq.
    + rewrite size_union by set_solver. rewrite size_singleton. lia.
    + rewrite length_app. cbn. lia.
Qed.

Lemma dup_loop_seen (names : list string) (seen : gset string) (duplicated : list string) :
  (fold_left dup_step names (seen, duplicated)).1 = list_to_set names ∪ seen.
Proof.
  revert seen duplicated.
  induction names as [|x names IH]; intros seen duplicated; cbn [fold_left].
  - cbn. set_solver.
  - destruct (dup_step (seen, duplicated) x) as [seen' duplicated'] eqn:E.
    rewrite IH. unfold dup_step in E. cbn [fst snd] in E. cbn [list_to_set].
    case_decide as Hx; simplify_eq; set_solver.
Qed.

Lemma dup_loop_sublist (names : list string) (seen : gset string) (duplicated : list string) :
  ∃ repeats, (fold_left dup_step names (seen, duplicated)).2 = duplicated ++ repeats ∧
             sublist repeats names.
Proof.
  revert seen duplicated.
  induction names as [|x names IH]; intros seen duplicated; cbn [fold_left].
  - exists []. by rewrite app_nil_r.
  - unfold dup_step at 2. cbn [fst snd]. case_decide.
    + destruct (IH ({[x]} ∪ seen) duplicated) as (repeats & -> & Hsub).
      exists repeats. split; [done|]. by apply sublist_cons.
    + destruct (IH seen (duplicated ++ [x])) as (repeats & -> & Hsub).
      exists (x :: repeats). rewrite <- app_assoc. split; [done|]. by apply sublist_skip.
Qed.

Lemma check_for_duplicated_entries_nil (data : list Domain) :
  check_for_duplicated_entries data = [] ↔ NoDup (name <$> data).
Proof.
  assert (Hocc : ∀ n, occurrences n (check_for_duplicated_entries data) =
                      Nat.pred (occurrences n (name <$> data))).
  { intros n. unfold check_for_duplicated_entries.
    rewrite dup_loop_occurrences, decide_False by set_solver. done. }
  rewrite occurrences_NoDup. split.
  - intros Hnil n. specialize (Hocc n). rewrite Hnil in Hocc. cbn in Hocc. lia.
  - intros Hle. destruct (check_for_duplicated_entries data) as [|x l] eqn:E; [done|].
    specialize (Hocc x). specialize (Hle x).
    rewrite occurrences_cons, decide_True in Hocc by done. lia.
Qed.

End ValidatorCount.

(** X5: the validator reports the repeats in the order in which they
    appear in the data, and as many names as there are records beyond
    the number of distinct names. *)
Theorem check_for_duplicated_entries_count (data : list Domain) :
  sublist (check_for_duplicated_entries data) (name <$> data) ∧
  (length (check_for_duplicated_entries data) +
   size (list_to_set (name <$> data) : gset string) = length data)%nat.
Proof.
  unfold check_for_duplicated_entries. cbv zeta. split.
  - destruct (dup_loop_sublist (name <$> data) ∅ []) as (repeats & -> & Hsub).
    by rewrite app_nil_l.
  - pose proof (dup_loop_count (name <$> data) ∅ []) as Hcount.
    rewrite dup_loop_seen in Hcount. rewrite union_empty_r_L in Hcount.
    rewrite size_empty, length_fmap in Hcount. cbn [length] in Hcount. lia.
Qed.

(** X6: when a name is repeated, [main] raises before it normalizes or
    fetches anything, whatever the gateway would answer; the exception
    lists what the validator returned, which is not empty. *)
Theorem main_until_fetch_duplicates (gateway : nat → json → PostOutcome)
    (data : list Domain) (order : list nat) :
  ¬ NoDup (name <$> data) →
  main_until_fetch gateway data order =
    Raise (DuplicatedEntries (check_for_duplicated_entries data)) ∧
  check_for_duplicated_entries data ≠ [].
Proof.
  intros Hdup.
  assert (check_for_duplicated_entries data ≠ []) as Hne
    by (by rewrite check_for_duplicated_entries_nil).
  split; [|done]. unfold main_until_fetch. cbv zeta.
  rewrite decide_True; [done|].
  by destruct (check_for_duplicated_entries data).
Qed.

(** The theorem at three domains of one name. *)
Lemma main_until_fetch_duplicates_witness :
  main_until_fetch good_gateway triple_a [0; 1; 2]%nat =
    Raise (DuplicatedEntries (check_for_duplicated_entries triple_a)).
Proof.
  apply (main_until_fetch_duplicates good_gateway triple_a [0; 1; 2]%nat).
  intros Hnodup. cbn in Hnodup. apply NoDup_cons in Hnodup as [Hin _].
  apply Hin. left.
Defined.

(** ** More on the normalizer *)

Section NormalizerFrame.

Lemma format_step_other_fields st st' entry :
  format_step st entry = Ok st' →
  other_fields <$> st'.1 = (other_fields <$> st.1) ++ [other_fields entry] ∧
  ∃ added, st'.2 = st.2 ++ added ∧ sublist added [entry].
Proof.
  unfold format_step. destruct (metadata entry) as [| | |path| |]; try done.
  cbv zeta. case_match; intros ?; simplify_eq; cbn [fst snd].
  - rewrite fmap_app. split; [done|]. by exists [entry].
  - rewrite fmap_app. split; [done|]. exists []. rewrite app_nil_r.
    split; [done|]. apply sublist_nil_l.
Qed.

Lemma format_loop_other_fields data st st' :
  for_each format_step data st = Ok st' →
  other_fields <$> st'.1 = (other_fields <$> st.1) ++ (other_fields <$> data) ∧
  ∃ added, st'.2 = st.2 ++ added ∧ sublist added data.
Proof.
  revert st. induction data as [|entry data IH]; intros st Hrun.
  - cbn in Hrun. simplify_eq. rewrite app_nil_r. split; [done|].
    exists []. by rewrite app_nil_r.
  - cbn [for_each] in Hrun. destruct (format_step st entry) as [st1|] eqn:Hstep; [|done].
    cbn [bind] in Hrun.
    apply format_step_other_fields in Hstep as (Hfields & added & Hadded & Hsub).
    apply IH in Hrun as (Hfields' & added' & Hadded' & Hsub').
    rewrite Hfields', Hfields, <- app_assoc. split; [done|].
    exists (added ++ added'). rewrite Hadded', Hadded, <- app_assoc. split; [done|].
    change (entry :: data) with ([entry] ++ data). by apply sublist_app.
Qed.

Lemma format_loop_type_error data st :
  Exists (λ entry, ∀ path, metadata entry ≠ JStr path) data →
  for_each format_step data st = Raise TypeError.
Proof.
  revert st. induction data as [|entry data IH]; intros st Hbad.
  - by apply Exists_nil in Hbad.
  - cbn [for_each]. unfold format_step at 1.
    destruct (metadata entry) as [| | |path| |] eqn:Hm; try done.
    apply Exists_cons in Hbad as [Hbad|Hbad]; [by destruct (Hbad path)|].
    cbv zeta. case_match; cbn [bind]; by apply IH.
Qed.

End NormalizerFrame.

(** X7: the normalizer changes nothing but the [metadata] field: the
    first result has the ids, index ids and names of the input, position
    by position, and the second result is a sublist of the input. *)
Theorem format_ipfs_hash_in_dicts_other_fields (data data' not_match : list Domain) :
  format_ipfs_hash_in_dicts data = Ok (data', not_match) →
  other_fields <$> data' = other_fields <$> data ∧
  length data' = length data ∧
  sublist not_match data.
Proof.
  intros Hrun. unfold format_ipfs_hash_in_dicts in Hrun.
  apply format_loop_other_fields in Hrun as (Hfields & added & Hadded & Hsub).
  cbn [fst snd] in *. rewrite app_nil_l in Hadded, Hfields. subst added.
  split_and!; [done| |done].
  apply (f_equal length) in Hfields. by rewrite !length_fmap in Hfields.
Qed.

(** The theorem at one prefixed and one bare pointer. *)
Lemma format_ipfs_hash_in_dicts_other_fields_witness :
  other_fields <$> [set_metadata prefixed_entry (JStr "QmABC123"); bare_entry] =
    other_fields <$> [prefixed_entry; bare_entry] ∧
  length [set_metadata prefixed_entry (JStr "QmABC123"); bare_entry] =
    length [prefixed_entry; bare_entry] ∧
  sublist [bare_entry] [prefixed_entry; bare_entry].
Proof.
  apply (format_ipfs_hash_in_dicts_other_fields [prefixed_entry; bare_entry]).
  vm_compute. reflexivity.
Defined.

(** X8: a pointer that is not a string, such as [null], makes the
    normalizer raise a [TypeError]: no result is returned for any of the
    domains. *)
Theorem format_ipfs_hash_in_dicts_type_error (data : list Domain) :
  Exists (λ entry, ∀ path, metadata entry ≠ JStr path) data →
  format_ipfs_hash_in_dicts data = Raise TypeError.
Proof.
  intros Hbad. unfold format_ipfs_hash_in_dicts. by apply format_loop_type_error.
Qed.

(** The theorem at a list whose last pointer is [null]. *)
Lemma format_ipfs_hash_in_dicts_type_error_witness :
  format_ipfs_hash_in_dicts [prefixed_entry; bare_entry; null_entry] = Raise TypeError.
Proof.
  apply (format_ipfs_hash_in_dicts_type_error [prefixed_entry; bare_entry; null_entry]).
  do 2 apply Exists_cons_tl. apply Exists_cons_hd. intros path. discriminate.
Defined.

(** ** More on the fetch pipeline *)

Section PipelineFailures.
Variable gateway : nat → json → PostOutcome.
Variable data : list Domain.

Lemma for_each_app {St A : Type} (body : St → A → Exc St) (xs ys : list A) (st : St) :
  for_each body (xs ++ ys) st = bind (for_each body xs st) (for_each body ys).
Proof.
  revert st. induction xs as [|x xs IH]; intros st; [done|].
  cbn [app for_each]. destruct (body st x); [apply IH|done].
Qed.

Lemma error_of_kind (outcome : PostOutcome) (e : PyErr) :
  error_of outcome = Some e → e = ConnectError ∨ e = JSONDecodeError.
Proof. destruct outcome as [[status [doc|]]|]; cbn; intros ?; simplify_eq; auto. Qed.

Lemma complete_task_error st index entry e :
  entries st !! index = Some entry →
  error_of (gateway index (metadata entry)) = Some e →
  complete_task gateway st index = Raise e.
Proof.
  intros Hentry He. unfold complete_task, get_metadata. rewrite Hentry.
  destruct (gateway index (metadata entry)) as [[status [doc|]]|]; cbn in *; by simplify_eq.
Qed.

Lemma complete_task_raises_kind st index e :
  complete_task gateway st index = Raise e → e = ConnectError ∨ e = JSONDecodeError.
Proof.
  unfold complete_task, get_metadata. destruct (entries st !! index) as [entry|]; [|done].
  destruct (gateway index (metadata entry)) as [[status [doc|]]|]; cbn; intros ?;
    simplify_eq; auto.
Qed.

Lemma run_raises_kind order st e :
  for_each (complete_task gateway) order st = Raise e →
  e = ConnectError ∨ e = JSONDecodeError.
Proof.
  revert st. induction order as [|index order IH]; intros st; [done|].
  cbn [for_each]. destruct (complete_task gateway st index) as [st1|e1] eqn:Hstep.
  - apply IH.
  - cbn. intros ?. simplify_eq. by eapply complete_task_raises_kind.
Qed.

(** The tasks of [before] complete one after the other when their
    fetches resolve, and leave the other entries as they were. *)
Lemma run_prefix before completed st :
  NoDup before → (∀ i, i ∈ before → i ∉ completed) →
  (∀ i entry, i ∈ before → data !! i = Some entry →
     is_Some (document_of (gateway i (metadata entry)))) →
  untouched data completed st →
  ∃ st', for_each (complete_task gateway) before st = Ok st' ∧
         untouched data (list_to_set before ∪ completed) st'.
Proof.
  revert completed st.
  induction before as [|index before IH]; intros completed st Hnodup Hfresh Hok Hun.
  - exists st. split; [done|]. intros i Hi. apply Hun. set_solver.
  - apply NoDup_cons in Hnodup as [Hindex Hnodup]. cbn [for_each].
    assert (∃ st1, complete_task gateway st index = Ok st1) as [st1 Hstep].
    { unfold complete_task. rewrite (Hun index) by (apply Hfresh; left).
      destruct (data !! index) as [entry|] eqn:Hentry; [|by eexists].
      destruct (Hok index entry) as [doc Hdoc]; [left|done|].
      unfold get_metadata. destruct (gateway index (metadata entry)) as [response|]; [|done].
      cbn in Hdoc. rewrite Hdoc. by eexists. }
    rewrite Hstep. cbn [bind].
    destruct (IH ({[index]} ∪ completed) st1) as (st' & Hrun & Hun'); auto.
    + intros i Hi. specialize (Hfresh i). set_solver.
    + intros i entry Hi. apply Hok. by right.
    + by eapply complete_task_untouched.
    + exists st'. split; [done|]. intros i Hi. apply Hun'. set_solver.
Qed.

End PipelineFailures.

(** X9: the run ends with the exception of the first task, in the order
    of completion, whose fetch fails: [ConnectError] when the connection
    failed, [JSONDecodeError] when the body does not decode.  The tasks
    that would complete later play no part. *)
Theorem get_all_metadata_first_failure (gateway : nat → json → PostOutcome)
    (data : list Domain) (before rest : list nat) (bad : nat) (entry : Domain) (e : PyErr) :
  NoDup (before ++ [bad]) →
  (∀ i entry, i ∈ before → data !! i = Some entry →
     is_Some (document_of (gateway i (metadata entry)))) →
  data !! bad = Some entry →
  error_of (gateway bad (metadata entry)) = Some e →
  get_all_metadata gateway data (before ++ bad :: rest) = Raise e.
Proof.
  intros Hnodup Hok Hentry He. unfold get_all_metadata.
  apply NoDup_app in Hnodup as (Hbefore & Hbad & _).
  destruct (run_prefix gateway data before ∅
              {| entries := data; gathered := ∅; pbar := 0 |})
    as (st' & Hrun & Hun); try done.
  rewrite for_each_app, Hrun. cbn [bind for_each].
  rewrite (complete_task_error gateway st' bad entry e); [done| |done].
  rewrite (Hun bad); [done|]. intros Hin. apply (Hbad bad); set_solver.
Qed.

(** The theorem at three tasks: the first completes, then the second,
    whose body does not decode. *)
Lemma get_all_metadata_first_failure_witness :
  get_all_metadata flaky_gateway hashed_abc [0; 1; 2]%nat = Raise JSONDecodeError.
Proof.
  apply (get_all_metadata_first_failure flaky_gateway hashed_abc [0%nat] [2%nat] 1
           (mkDomain "0x02" 2 "wilder.b" (JStr "QmB")) JSONDecodeError).
  - repeat constructor; set_solver.
  - intros i entry Hi%list_elem_of_singleton _. subst i. by eexists.
  - reflexivity.
  - reflexivity.
Defined.

(** X10: one fetch whose connection fails or whose body does not decode
    makes the whole run raise, in whatever order the tasks complete, and
    the exception is a [ConnectError] or a [JSONDecodeError]: no list of
    results is returned. *)
Theorem get_all_metadata_fails_as_a_whole (gateway : nat → json → PostOutcome)
    (data : list Domain) (order : list nat) (bad : nat) (entry : Domain) :
  order ≡ₚ seq 0 (length data) →
  data !! bad = Some entry →
  document_of (gateway bad (metadata entry)) = None →
  ∃ e, get_all_metadata gateway data order = Raise e ∧
       (e = ConnectError ∨ e = JSONDecodeError).
Proof.
  intros Hperm Hentry Hdoc. unfold get_all_metadata.
  destruct (run_raises gateway data order ∅
              {| entries := data; gathered := ∅; pbar := 0 |} bad entry)
    as [e He]; try done.
  - rewrite Hperm. apply NoDup_seq.
  - rewrite Hperm, elem_of_seq. apply lookup_lt_Some in Hentry. lia.
  - exists e. rewrite He. split; [done|]. by eapply run_raises_kind.
Qed.

(** The theorem at three tasks of which one fails, the failing one last. *)
Lemma get_all_metadata_fails_as_a_whole_witness :
  ∃ e, get_all_metadata flaky_gateway hashed_abc [0; 2; 1]%nat = Raise e ∧
       (e = ConnectError ∨ e = JSONDecodeError).
Proof.
  apply (get_all_metadata_fails_as_a_whole flaky_gateway hashed_abc [0; 2; 1]%nat 1
           (mkDomain "0x02" 2 "wilder.b" (JStr "QmB"))).
  - cbn [length hashed_abc seq]. apply perm_skip, perm_swap.
  - reflexivity.
  - reflexivity.
Defined.

(** X11: a run that returns has changed nothing but the [metadata]
    fields: the results have the ids, index ids and names of the input,
    position by position. *)
Theorem get_all_metadata_other_fields (gateway : nat → json → PostOutcome)
    (data results : list Domain) (order : list nat) :
  order ≡ₚ seq 0 (length data) →
  get_all_metadata gateway data order = Ok results →
  other_fields <$> results = other_fields <$> data ∧ length results = length data.
Proof.
  intros Hperm Hrun.
  set (docs := λ i : nat,
         default JNull (entry ← data !! i; document_of (gateway i (metadata entry)))).
  assert (∀ i entry, data !! i = Some entry →
            document_of (gateway i (metadata entry)) = Some (docs i)) as Hdocs.
  { intros i entry Hentry. unfold docs. rewrite Hentry. cbn.
    destruct (document_of (gateway i (metadata entry))) as [doc|] eqn:Hdoc; [done|].
    destruct (get_all_metadata_aborts gateway data order i entry) as [e He]; try done.
    congruence. }
  unfold get_all_metadata in Hrun.
  destruct (run_resolved gateway data docs order ∅
              {| entries := data; gathered := ∅; pbar := 0 |})
    as (st' & Hrun' & Hres); try done.
  - rewrite Hperm. apply NoDup_seq.
  - intros i Hi. rewrite Hperm, elem_of_seq in Hi. split; [set_solver|lia].
  - rewrite Hrun' in Hrun. cbn [bind] in Hrun. simplify_eq.
    unfold list_from_indexed_dict.
    rewrite (list_from_indexed_dict_resolved _ (λ i entry, set_metadata entry (docs i)) 0 data).
    + split; [|by rewrite length_imap].
      rewrite fmap_imap. cbn. etrans; [|apply imap_const]. by apply imap_ext.
    + intros j entry Hj. apply Hres; [done|].
      rewrite elem_of_union, elem_of_list_to_set, Hperm, elem_of_seq. left.
      apply lookup_lt_Some in Hj. lia.
Qed.

(** The theorem at three domains of which the third is resolved first. *)
Lemma get_all_metadata_other_fields_witness :
  other_fields <$> imap (λ i entry, set_metadata entry (document_for i)) hashed_abc =
    other_fields <$> hashed_abc ∧
  length (imap (λ i entry, set_metadata entry (document_for i)) hashed_abc) =
    length hashed_abc.
Proof.
  apply (get_all_metadata_other_fields good_gateway hashed_abc _ [2; 0; 1]%nat).
  - cbn [length hashed_abc seq]. apply (Permutation_cons_append [0; 1]%nat 2%nat).
  - vm_compute. reflexivity.
Defined.

(** ** More on the partitioner *)

(** X12: one file is written per group, in the order of the groups and
    under the group's name.  Its entries are those of the data, in the
    order of the data, whose name ends with the group, a dot and one
    non-empty segment without a dot; what comes before the group in the
    name is not looked at. *)
Theorem separate_industries_into_files_selection (data : list Domain)
    (domain_groups : list string) :
  (separate_industries_into_files data domain_groups).*1 = domain_groups ∧
  ∀ j domain_group content,
    separate_industries_into_files data domain_groups !! j = Some (domain_group, content) →
    ∃ selected,
      content = group_entry <$> selected ∧
      sublist selected data ∧
      ∀ entry, entry ∈ selected ↔
        entry ∈ data ∧
        ∃ before segment,
          name entry = before +:+ domain_group +:+ "." +:+ segment ∧
          segment ≠ "" ∧ has_dot segment = false.
Proof.
  unfold separate_industries_into_files. split.
  - rewrite <- list_fmap_compose. apply list_fmap_id.
  - intros j domain_group content Hj.
    rewrite list_lookup_fmap in Hj.
    destruct (domain_groups !! j) as [g|]; [|done]. cbn in Hj. simplify_eq.
    eexists. split; [done|]. split; [apply sublist_filter|].
    intros entry. rewrite list_elem_of_filter, re_search_group_spec. tauto.
Qed.

(** The theorem at a child, the group's own domain, a grandchild and a
    domain of another tree whose name ends like a child's. *)
Lemma separate_industries_into_files_selection_witness :
  ∃ selected,
    [group_entry child_entry; group_entry stray_entry] = group_entry <$> selected ∧
    sublist selected [child_entry; group_node_entry; grandchild_entry; stray_entry] ∧
    ∀ entry, entry ∈ selected ↔
      entry ∈ [child_entry; group_node_entry; grandchild_entry; stray_entry] ∧
      ∃ before segment,
        name entry = before +:+ "wilder.wheels.genesis" +:+ "." +:+ segment ∧
        segment ≠ "" ∧ has_dot segment = false.
Proof.
  apply (proj2 (separate_industries_into_files_selection
                  [child_entry; group_node_entry; grandchild_entry; stray_entry]
                  ["wilder.wheels.genesis"]) 0%nat).
  vm_compute. reflexivity.
Defined.

Section Dots.

Lemma has_dot_app (a b : string) : has_dot (a +:+ b) = has_dot a || has_dot b.
Proof.
  induction a as [|c a IH]; [done|]. rewrite string_app_cons. cbn [has_dot].
  by rewrite IH, orb_assoc.
Qed.

(** A non-empty end of a string that ends with a dot has a dot. *)
Lemma ends_with_dot (a b segment : string) :
  a +:+ "." = b +:+ segment → segment ≠ "" → has_dot segment = true.
Proof.
  revert a. induction b as [|c b IH]; intros a Heq Hne.
  - rewrite string_app_nil_l in Heq. subst segment. rewrite has_dot_app.
    apply orb_true_iff. by right.
  - destruct a as [|c' a].
    + rewrite string_app_nil_l, string_app_cons in Heq. simplify_eq.
      destruct b; [|done]. rewrite string_app_nil_l in *. by subst.
    + rewrite !string_app_cons in Heq. simplify_eq. by eapply IH.
Qed.

End Dots.

(** X13: the pattern of a group matches the name of every direct child;
    it matches neither the group's own name, nor a name without a dot,
    nor a name that ends with a dot. *)
Theorem re_search_group_children (domain_group : string) :
  (∀ segment, segment ≠ "" → has_dot segment = false →
     re_search_group domain_group (domain_group +:+ "." +:+ segment) = true) ∧
  re_search_group domain_group domain_group = false ∧
  (∀ s, has_dot s = false → re_search_group domain_group s = false) ∧
  (∀ s, re_search_group domain_group (s +:+ ".") = false).
Proof.
  split_and!.
  - intros segment Hne Hdot. apply re_search_group_spec. by exists "", segment.
  - apply not_true_is_false. intros (before & segment & Hs & _)%re_search_group_spec.
    apply (f_equal String.length) in Hs. rewrite !string_length_app in Hs. cbn in Hs. lia.
  - intros s Hdot. apply not_true_is_false.
    intros (before & segment & -> & _)%re_search_group_spec.
    rewrite !has_dot_app in Hdot. cbn in Hdot.
    by rewrite !orb_true_r in Hdot.
  - intros s. apply not_true_is_false.
    intros (before & segment & Hs & Hne & Hdot)%re_search_group_spec.
    rewrite <- !string_app_assoc in Hs. apply ends_with_dot in Hs; [|done]. congruence.
Qed.

(** The theorem at the group [wilder.wheels.genesis] and its child [1]. *)
Lemma re_search_group_children_witness :
  re_search_group "wilder.wheels.genesis" ("wilder.wheels.genesis" +:+ "." +:+ "1") = true.
Proof.
  apply (proj1 (re_search_group_children "wilder.wheels.genesis") "1");
    [discriminate|reflexivity].
Defined.

(** ** More on the flattener *)

Section JsonInduction.

(** Induction on a JSON value with the hypothesis for every element of a
    list and every value of a dict. *)
Lemma json_nested_ind (P : json → Prop) :
  P JNull → (∀ b, P (JBool b)) → (∀ n, P (JNum n)) → (∀ s, P (JStr s)) →
  (∀ l, Forall P l → P (JList l)) →
  (∀ d, Forall (λ kv, P kv.2) d → P (JDict d)) →
  ∀ v, P v.
Proof.
  intros Hnull Hbool Hnum Hstr Hlist Hdict. fix IH 1.
  intros [|b|n|s|l|d]; [exact Hnull|apply Hbool|apply Hnum|apply Hstr| |].
  - apply Hlist. induction l as [|x l IHl]; constructor; [apply IH|exact IHl].
  - apply Hdict. induction d as [|[k x] d IHd]; constructor; [apply IH|exact IHd].
Qed.

End JsonInduction.

Section DictFacts.

Lemma dict_set_keys (d : Dict) key value :
  (dict_set d key value).*1 = if decide (key ∈ d.*1) then d.*1 else d.*1 ++ [key].
Proof.
  induction d as [|[k v] d IH]; [done|]. cbn [dict_set].
  destruct (String.eqb_spec k key) as [->|Hne].
  - cbn. rewrite decide_True by left. done.
  - cbn. rewrite IH. destruct (decide (key ∈ d.*1)).
    + rewrite decide_True by (by right). done.
    + rewrite decide_False by (intros [?|?]%elem_of_cons; congruence). done.
Qed.

Lemma dict_set_NoDup (d : Dict) key value :
  NoDup d.*1 → NoDup (dict_set d key value).*1.
Proof.
  intros Hd. rewrite dict_set_keys. case_decide; [done|].
  apply NoDup_app. split_and!; [done| |apply NoDup_singleton].
  intros k Hk Hin%list_elem_of_singleton. by subst.
Qed.

Lemma dict_update_NoDup (d other : Dict) :
  NoDup d.*1 → NoDup (dict_update d other).*1.
Proof.
  unfold dict_update. revert d. induction other as [|[k v] other IH]; intros d Hd; [done|].
  cbn [fold_left fst snd]. by apply IH, dict_set_NoDup.
Qed.

(** Updating an empty dict with a dict gives that dict. *)
Lemma dict_update_fresh (d other : Dict) :
  NoDup (d.*1 ++ other.*1) → dict_update d other = d ++ other.
Proof.
  unfold dict_update. revert d. induction other as [|[k v] other IH]; intros d Hd.
  - by rewrite app_nil_r.
  - cbn [fold_left fst snd]. cbn in Hd.
    rewrite dict_set_fresh.
    + rewrite IH; [by rewrite <- app_assoc|].
      rewrite fmap_app, <- app_assoc. done.
    + apply NoDup_app in Hd as (_ & Hd & _). intros Hin. apply (Hd k Hin). left.
Qed.

Lemma dict_update_nil (other : Dict) : NoDup other.*1 → dict_update [] other = other.
Proof. intros Hd. by rewrite dict_update_fresh. Qed.

Lemma dict_set_values (P : json → Prop) (d : Dict) key value :
  Forall P d.*2 → P value → Forall P (dict_set d key value).*2.
Proof.
  intros Hd Hv. induction d as [|[k v] d IH]; [by repeat constructor|].
  cbn [dict_set]. cbn in Hd. apply Forall_cons in Hd as [Hv' Hd].
  destruct (String.eqb k key); cbn; constructor; auto.
Qed.

Lemma dict_update_values (P : json → Prop) (d other : Dict) :
  Forall P d.*2 → Forall P other.*2 → Forall P (dict_update d other).*2.
Proof.
  unfold dict_update. revert d. induction other as [|[k v] other IH]; intros d Hd Ho; [done|].
  cbn [fold_left fst snd]. cbn in Ho. apply Forall_cons in Ho as [Hv Ho].
  apply IH; [|done]. by apply dict_set_values.
Qed.

Lemma dict_set_with_prefix (p : string) (d : Dict) key value :
  dict_set (with_prefix p d) (p +:+ key) value = with_prefix p (dict_set d key value).
Proof.
  induction d as [|[k v] d IH]; [done|]. cbn [with_prefix fmap list_fmap dict_set fst snd].
  destruct (String.eqb_spec k key) as [->|Hne].
  - by rewrite String.eqb_refl.
  - destruct (String.eqb_spec (p +:+ k) (p +:+ key)) as [Heq%String.app_inj|_]; [done|].
    cbn. f_equal. apply IH.
Qed.

Lemma dict_update_with_prefix (p : string) (d other : Dict) :
  dict_update (with_prefix p d) (with_prefix p other) = with_prefix p (dict_update d other).
Proof.
  unfold dict_update. revert d. induction other as [|[k v] other IH]; intros d; [done|].
  cbn [with_prefix fmap list_fmap fold_left fst snd].
  rewrite dict_set_with_prefix. apply IH.
Qed.

End DictFacts.

Section FlattenDeep.

Lemma flatten_item_cases (value : json) :
  is_leaf value = true ∨ (∃ kv d, value = JDict (kv :: d)) ∨ (∃ x l, value = JList (x :: l)).
Proof. destruct value as [| | | |[|??]|[|??]]; eauto. Qed.

Lemma flatten_item_NoDup separator prefix key value (out : Dict) :
  NoDup out.*1 → NoDup (flatten_item separator prefix key value out).*1.
Proof.
  intros Hout. destruct (flatten_item_cases value) as [Hleaf|[(kv & d & ->)|(x & l & ->)]].
  - rewrite flatten_item_leaf by done. by apply dict_set_NoDup.
  - rewrite flatten_item_dict. by apply dict_update_NoDup.
  - rewrite flatten_item_list. generalize (enumerate 1 (x :: l)). intros elements.
    revert out Hout. induction elements as [|[i e] elements IH]; intros out Hout; [done|].
    cbn [fold_left]. apply IH. unfold flatten_element. cbn [fst snd].
    destruct e as [| | | | |[|??]]; auto using dict_set_NoDup, dict_update_NoDup.
Qed.

Lemma flatten_NoDup (d : Dict) separator prefix : NoDup (flatten d separator prefix).*1.
Proof.
  unfold flatten. assert (NoDup (@nil (string * json)).*1) as Hnil by constructor.
  revert Hnil. generalize (@nil (string * json)).
  induction d as [|[k v] d IH]; intros out Hout; [done|].
  cbn [fold_left fst snd]. by apply IH, flatten_item_NoDup.
Qed.

(** The items of a dict, one after the other, given the statement for
    every value. *)
Lemma flatten_fold_with_prefix separator p q (d out : Dict) :
  Forall (λ kv, ∀ key out,
            flatten_item separator (p +:+ q) key kv.2 (with_prefix p out) =
            with_prefix p (flatten_item separator q key kv.2 out)) d →
  fold_left (λ out kv, flatten_item separator (p +:+ q) kv.1 kv.2 out) d (with_prefix p out) =
  with_prefix p (fold_left (λ out kv, flatten_item separator q kv.1 kv.2 out) d out).
Proof.
  intros Hd. revert out. induction Hd as [|[k v] d Hv _ IH]; intros out; [done|].
  cbn [fold_left fst snd] in *. rewrite Hv. apply IH.
Qed.

Lemma flatten_item_prefix_moves (v : json) : prefix_moves v.
Proof.
  induction v as [|b|n|s|l Hl|d Hd] using json_nested_ind.
  1-4: split; [|done]; intros separator p q key out;
       rewrite !flatten_item_leaf, string_app_assoc by done; apply dict_set_with_prefix.
  - split; [|done]. intros separator p q key out.
    destruct l as [|x l].
    { rewrite !flatten_item_leaf, string_app_assoc by done. apply dict_set_with_prefix. }
    rewrite !flatten_item_list. generalize (JList (x :: l)) as value.
    generalize 1%nat as start. revert Hl. generalize (x :: l) as elements.
    clear x l. intros elements Hl start value. revert start out.
    induction Hl as [|e elements He _ IH]; intros start out; [done|].
    change (enumerate start (e :: elements))
      with ((start, e) :: enumerate (S start) elements).
    cbn [fold_left]. rewrite <- IH. f_equal.
    unfold flatten_element. cbn [fst snd].
    destruct (flatten_item_cases e) as [Hleaf|[(kv & d & ->)|(y & l' & ->)]].
    + rewrite string_app_assoc.
      destruct e as [| | | |[|??]|[|??]]; try done; apply dict_set_with_prefix.
    + destruct He as [_ He]. rewrite string_app_assoc, (He _ eq_refl).
      apply dict_update_with_prefix.
    + rewrite string_app_assoc. apply dict_set_with_prefix.
  - assert (∀ separator p q,
              flatten d separator (p +:+ q) = with_prefix p (flatten d separator q)) as Hflat.
    { intros separator p q. unfold flatten.
      change (@nil (string * json)) with (with_prefix p []) at 1.
      apply flatten_fold_with_prefix.
      eapply Forall_impl; [exact Hd|]. intros kv [Hkv _] key out. apply Hkv. }
    split; [|by intros ? [= <-]]. intros separator p q key out.
    destruct d as [|kv d].
    { rewrite !flatten_item_leaf, string_app_assoc by done. apply dict_set_with_prefix. }
    rewrite !flatten_item_dict, string_app_assoc, Hflat. apply dict_update_with_prefix.
Qed.

End FlattenDeep.

(** X14: the prefix is only put before the keys: flattening under the
    prefix [p q] gives the keys of flattening under [q] with [p] before
    each of them, in the same order and with the same values.  So every
    key of the result begins with the prefix. *)
Theorem flatten_prefix (input_dict : Dict) (separator p q : string) :
  flatten input_dict separator (p +:+ q) = with_prefix p (flatten input_dict separator q) ∧
  Forall (λ key, ∃ rest, key = p +:+ rest) (flatten input_dict separator p).*1.
Proof.
  assert (∀ p q, flatten input_dict separator (p +:+ q) =
                 with_prefix p (flatten input_dict separator q)) as Hmove.
  { intros p' q'. by apply (proj2 (flatten_item_prefix_moves (JDict input_dict))). }
  split; [apply Hmove|].
  pose proof (Hmove p "") as Hp. rewrite string_app_nil_r in Hp. rewrite Hp.
  unfold with_prefix. rewrite <- list_fmap_compose. apply Forall_fmap, Forall_forall.
  intros [k v] _. by exists k.
Qed.

Section FlattenValues.

Lemma leaf_dissolved (v : json) : is_leaf v = true → dissolved v.
Proof. intros Hleaf kv d ->. done. Qed.

Lemma flatten_fold_dissolved separator prefix (d out : Dict) :
  Forall (λ kv, ∀ key out, Forall dissolved out.*2 →
            Forall dissolved (flatten_item separator prefix key kv.2 out).*2) d →
  Forall dissolved out.*2 →
  Forall dissolved
    (fold_left (λ out kv, flatten_item separator prefix kv.1 kv.2 out) d out).*2.
Proof.
  intros Hd. revert out. induction Hd as [|[k v] d Hv _ IH]; intros out Hout; [done|].
  cbn [fold_left fst snd] in *. by apply IH, Hv.
Qed.

Lemma flatten_item_values_dissolved (v : json) : values_dissolved v.
Proof.
  induction v as [|b|n|s|l Hl|d Hd] using json_nested_ind.
  1-4: split; [|done]; intros separator prefix key out Hout;
       rewrite flatten_item_leaf by done; by apply dict_set_values.
  - split; [|done]. intros separator prefix key out Hout.
    destruct l as [|x l].
    { rewrite flatten_item_leaf by done. by apply dict_set_values. }
    rewrite flatten_item_list.
    assert (dissolved (JList (x :: l))) as Hvalue by done.
    revert Hvalue. generalize (JList (x :: l)) as value.
    generalize 1%nat as start. revert Hl. generalize (x :: l) as elements.
    clear x l. intros elements Hl start value Hvalue. revert start out Hout.
    induction Hl as [|e elements He _ IH]; intros start out Hout; [done|].
    change (enumerate start (e :: elements))
      with ((start, e) :: enumerate (S start) elements).
    cbn [fold_left]. apply IH. unfold flatten_element. cbn [fst snd].
    destruct (flatten_item_cases e) as [Hleaf|[(kv & d & ->)|(y & l' & ->)]].
    + destruct e as [| | | |[|??]|[|??]]; try done; by apply dict_set_values.
    + destruct He as [_ He]. apply dict_update_values; [done|]. by apply He.
    + by apply dict_set_values.
  - assert (∀ separator prefix, Forall dissolved (flatten d separator prefix).*2) as Hflat.
    { intros separator prefix. unfold flatten. apply flatten_fold_dissolved; [|constructor].
      eapply Forall_impl; [exact Hd|]. intros kv [Hkv _] key out. apply Hkv. }
    split; [|by intros ? [= <-]]. intros separator prefix key out Hout.
    destruct d as [|kv d].
    { rewrite flatten_item_leaf by done. by apply dict_set_values. }
    rewrite flatten_item_dict. by apply dict_update_values.
Qed.

Lemma with_prefix_nil (d : Dict) : with_prefix "" d = d.
Proof.
  unfold with_prefix. etrans; [|apply list_fmap_id]. apply list_fmap_ext.
  by intros _ [k v] _.
Qed.

Lemma flatten_fold_flat separator (d out : Dict) :
  Forall (λ kv, is_leaf kv.2 = true) d → NoDup (out.*1 ++ d.*1) →
  fold_left (λ out kv, flatten_item separator "" kv.1 kv.2 out) d out = out ++ d.
Proof.
  intros Hd. revert out. induction Hd as [|[k v] d Hv _ IH]; intros out Hnodup.
  - by rewrite app_nil_r.
  - cbn [fold_left fst snd] in *. rewrite flatten_item_leaf by done.
    rewrite string_app_nil_l, dict_set_fresh.
    + rewrite IH; [by rewrite <- app_assoc|]. by rewrite fmap_app, <- app_assoc.
    + apply NoDup_app in Hnodup as (_ & Hnodup & _). intros Hin.
      apply (Hnodup k Hin). left.
Qed.

Lemma flatten_flat_nil (d : Dict) separator :
  NoDup d.*1 → Forall (λ kv, is_leaf kv.2 = true) d → flatten d separator "" = d.
Proof. intros Hnodup Hleaf. unfold flatten. by rewrite flatten_fold_flat. Qed.

End FlattenValues.

(** X15: no value of the result is a non-empty dict: nested dicts are
    always dissolved into keys, at any depth.  (A non-empty list can
    remain as a value: see the rule for list elements.) *)
Theorem flatten_values_dissolved (input_dict : Dict) (separator prefix : string) :
  Forall dissolved (flatten input_dict separator prefix).*2.
Proof.
  destruct (flatten_item_values_dissolved (JDict input_dict)) as [_ Hflat].
  by apply Hflat.
Qed.

(** X16: a dict that is flat already, its keys distinct and its values
    scalars or empty containers, is returned as it is, with the prefix
    put before each key. *)
Theorem flatten_flat (input_dict : Dict) (separator prefix : string) :
  NoDup input_dict.*1 →
  Forall (λ kv, is_leaf kv.2 = true) input_dict →
  flatten input_dict separator prefix = with_prefix prefix input_dict.
Proof.
  intros Hnodup Hleaf.
  destruct (flatten_item_prefix_moves (JDict input_dict)) as [_ Hmove].
  rewrite <- (string_app_nil_r prefix) at 1.
  rewrite (Hmove input_dict eq_refl). f_equal. by apply flatten_flat_nil.
Qed.

(** The theorem at a flat record. *)
Lemma flatten_flat_witness :
  flatten flat_document "." "metadata." = with_prefix "metadata." flat_document.
Proof.
  apply (flatten_flat flat_document "." "metadata.").
  - unfold flat_document. cbn. repeat constructor; set_solver.
  - unfold flat_document. repeat constructor.
Defined.

(** X17: flattening is idempotent on the results that hold no list:
    when every value of a result is a scalar or an empty container,
    flattening the result again, under the empty prefix and with any
    separator, changes nothing. *)
Theorem flatten_again (input_dict : Dict) (separator separator' prefix : string) :
  Forall (λ v, is_leaf v = true) (flatten input_dict separator prefix).*2 →
  flatten (flatten input_dict separator prefix) separator' "" =
  flatten input_dict separator prefix.
Proof.
  intros Hleaf. apply flatten_flat_nil; [apply flatten_NoDup|].
  by apply Forall_fmap in Hleaf.
Qed.

(** The theorem at a document with nested dicts and a list of dicts. *)
Lemma flatten_again_witness :
  flatten (flatten [("image", JDict [("url", JStr "u"); ("size", JDict [("w", JNum 1)])]);
                    ("parts", JList [JDict [("id", JNum 7)]])] "." "") "/" "" =
  flatten [("image", JDict [("url", JStr "u"); ("size", JDict [("w", JNum 1)])]);
           ("parts", JList [JDict [("id", JNum 7)]])] "." "".
Proof.
  apply (flatten_again _ "." "/" "").
  vm_compute. repeat constructor.
Defined.

(** X18: a nested dict only lengthens the prefix: flattening the dict
    that holds the non-empty dict [d] under the key [key] is flattening
    [d] under the prefix followed by [key] and the separator. *)
Theorem flatten_nested (key : string) (kv : string * json) (d : Dict)
    (separator prefix : string) :
  flatten [(key, JDict (kv :: d))] separator prefix =
  flatten (kv :: d) separator (prefix +:+ key +:+ separator).
Proof.
  unfold flatten at 1. cbn [fold_left fst snd].
  rewrite flatten_item_dict. apply dict_update_nil, flatten_NoDup.
Qed.

(** ** The export of a group *)

Section GroupExport.

Lemma dict_get_set_eq (d : Dict) key value :
  dict_get (dict_set d key value) key = Some value.
Proof.
  induction d as [|[k v] d IH]; cbn [dict_set dict_get].
  - by rewrite String.eqb_refl.
  - destruct (String.eqb_spec k key) as [->|Hne]; cbn [dict_get].
    + by rewrite String.eqb_refl.
    + by destruct (String.eqb_spec k key).
Qed.

Lemma dict_get_set_ne (d : Dict) key key' value :
  key ≠ key' → dict_get (dict_set d key value) key' = dict_get d key'.
Proof.
  intros Hne. induction d as [|[k v] d IH]; cbn [dict_set dict_get].
  - by destruct (String.eqb_spec key key').
  - destruct (String.eqb_spec k key) as [->|Hk]; cbn [dict_get].
    + by destruct (String.eqb_spec key key').
    + by rewrite IH.
Qed.

Lemma dict_get_Some_keys (d : Dict) key value :
  dict_get d key = Some value → key ∈ d.*1.
Proof.
  induction d as [|[k v] d IH]; [done|]. cbn [dict_get].
  destruct (String.eqb_spec k key) as [->|Hne]; [by left|]. intros H. right. by apply IH.
Qed.

Lemma dict_set_present_keys (d : Dict) key value value' :
  dict_get d key = Some value → (dict_set d key value').*1 = d.*1.
Proof.
  intros Hget. rewrite dict_set_keys, decide_True; [done|].
  by eapply dict_get_Some_keys.
Qed.

Lemma subscript_Ok (v : json) key x :
  subscript v key = Ok x ↔ ∃ d, v = JDict d ∧ dict_get d key = Some x.
Proof.
  unfold subscript. split.
  - destruct v as [| | | | |d]; try done. destruct (dict_get d key) eqn:E; [|done].
    intros ?. simplify_eq. eauto.
  - intros (d & -> & ->). done.
Qed.

Lemma map_exc_Ok_length {A B : Type} (f : A → Exc B) (l : list A) (l' : list B) :
  map_exc f l = Ok l' → Forall2 (λ x y, f x = Ok y) l l'.
Proof.
  revert l'. induction l as [|x l IH]; intros l' Hl; cbn in Hl.
  - simplify_eq. constructor.
  - destruct (f x) as [y|] eqn:Hx; [|done]. cbn in Hl.
    destruct (map_exc f l) as [ys|]; [|done]. cbn in Hl. simplify_eq.
    constructor; auto.
Qed.

Lemma map_exc_Forall2 {A B : Type} (f : A → Exc B) (l : list A) (l' : list B) :
  Forall2 (λ x y, f x = Ok y) l l' → map_exc f l = Ok l'.
Proof.
  induction 1 as [|x y l l' Hx _ IH]; [done|]. cbn. by rewrite Hx, IH.
Qed.

(** The first element on which the function raises decides. *)
Lemma map_exc_first_raise {A B : Type} (f : A → Exc B) (l : list A) (j : nat) (x : A) e :
  l !! j = Some x → f x = Raise e →
  (∀ k y, (k < j)%nat → l !! k = Some y → ∃ z, f y = Ok z) →
  map_exc f l = Raise e.
Proof.
  revert j. induction l as [|y l IH]; intros j Hj Hx Hbefore; [done|].
  destruct j as [|j]; cbn in Hj.
  - simplify_eq. cbn. by rewrite Hx.
  - cbn. destruct (Hbefore 0%nat y) as [z Hz]; [lia|done|]. rewrite Hz. cbn.
    rewrite (IH j); [done|done|done|].
    intros k y' Hk Hy'. apply (Hbefore (S k)); [lia|done].
Qed.

End GroupExport.

(** X19: the pre-pass needs the [attributes] of every document: the first
    entry of a group whose document is a dict without the key
    [attributes] makes the export of the whole group raise
    [KeyError('attributes')]; nothing is flattened. *)
Theorem process_group_missing_attributes (data : list Dict) (j : nat) (i m : Dict) :
  data !! j = Some i →
  dict_get i "metadata" = Some (JDict m) →
  dict_get m "attributes" = None →
  (∀ k i', (k < j)%nat → data !! k = Some i' → ∃ r, transform_attributes i' = Ok r) →
  process_group data = Raise (KeyError "attributes").
Proof.
  intros Hj Hm Hattr Hbefore. unfold process_group.
  rewrite (map_exc_first_raise transform_attributes data j i (KeyError "attributes"));
    [done|done| |done].
  unfold transform_attributes, subscript. rewrite Hm. cbn [bind]. by rewrite Hattr.
Qed.

(** The theorem at a group whose second entry has no attributes. *)
Lemma process_group_missing_attributes_witness :
  process_group [entry_named "wilder.wheels.genesis.1" (zeta_alpha "trait_type");
                 entry_without_attributes] = Raise (KeyError "attributes").
Proof.
  apply (process_group_missing_attributes _ 1 entry_without_attributes [("name", JStr "n")]).
  - reflexivity.
  - reflexivity.
  - reflexivity.
  - intros k i' Hk Hi'. assert (k = 0%nat) as -> by lia. cbn in Hi'. simplify_eq.
    eexists. vm_compute. reflexivity.
Defined.

(** X20: the pre-pass changes nothing but the [attributes] of the
    document: the entry keeps its keys in their order and its values
    under the keys other than [metadata], and the document keeps its
    keys in their order and its values under the keys other than
    [attributes]. *)
Theorem transform_attributes_frame (i i' : Dict) :
  transform_attributes i = Ok i' →
  i'.*1 = i.*1 ∧
  (∀ key, key ≠ "metadata" → dict_get i' key = dict_get i key) ∧
  ∃ m m',
    dict_get i "metadata" = Some (JDict m) ∧
    dict_get i' "metadata" = Some (JDict m') ∧
    m'.*1 = m.*1 ∧
    (∀ key, key ≠ "attributes" → dict_get m' key = dict_get m key).
Proof.
  unfold transform_attributes. intros Hrun.
  destruct (subscript (JDict i) "metadata") as [document|] eqn:Hdoc; [|done].
  cbn [bind] in Hrun.
  destruct (subscript document "attributes") as [attributes|] eqn:Hattr; [|done].
  cbn [bind] in Hrun.
  destruct (transform_attribute_list attributes) as [attributes'|]; [|done].
  cbn [bind] in Hrun.
  apply subscript_Ok in Hdoc as (? & [= <-] & Hdoc).
  apply subscript_Ok in Hattr as (m & -> & Hattr). simplify_eq.
  split_and!.
  - by eapply dict_set_present_keys.
  - intros key Hkey. by apply dict_get_set_ne.
  - exists m, (dict_set m "attributes" attributes'). split_and!; [done| | |].
    + apply dict_get_set_eq.
    + by eapply dict_set_present_keys.
    + intros key Hkey. by apply dict_get_set_ne.
Qed.

(** The theorem at an entry with the attributes Zeta and Alpha. *)
Lemma transform_attributes_frame_witness :
  ∃ i', transform_attributes (entry_named "wilder.a" (zeta_alpha "trait_type")) = Ok i' ∧
        i'.*1 = ["tokenId"; "domain"; "metadata"].
Proof.
  eexists. split; [vm_compute; reflexivity|].
  apply (transform_attributes_frame (entry_named "wilder.a" (zeta_alpha "trait_type"))).
  vm_compute. reflexivity.
Defined.

Section GroupSort.

Lemma flatten_entry_transform (i r : Dict) :
  transform_attributes i = Ok r → flatten_entry i = Ok (flatten r "." "").
Proof. intros Hr. unfold flatten_entry. by rewrite Hr. Qed.

Lemma keyed_by_domain (flat : list Dict) (keyed : list (string * Dict)) :
  map_exc (λ d, key ←! domain_of d; Ok (key, d)) flat = Ok keyed →
  keyed.*2 = flat ∧ Forall (λ kd, domain_of kd.2 = Ok kd.1) keyed.
Proof.
  intros Hkeyed%map_exc_Ok_length.
  induction Hkeyed as [|d kd flat keyed Hd _ [IH1 IH2]]; [by split|].
  destruct (domain_of d) as [key|] eqn:Hkey; [|done]. cbn in Hd. simplify_eq.
  cbn. split; [by f_equal|]. by constructor.
Qed.

Lemma sorted_by_domain (keyed : list (string * Dict)) :
  Sorted key_le keyed → Forall (λ kd, domain_of kd.2 = Ok kd.1) keyed →
  Sorted domain_le keyed.*2.
Proof.
  induction 1 as [|kd keyed Hsorted IH Hhd]; intros Hkeys; [constructor|].
  apply Forall_cons in Hkeys as [Hkd Hkeys]. cbn. constructor; [by apply IH|].
  destruct Hhd as [|kd' keyed Hle]; [constructor|]. cbn. constructor.
  apply Forall_cons in Hkeys as [Hkd' _]. by exists kd.1, kd'.1.
Qed.

End GroupSort.

(** X21: when the export of a group goes through, its records are the
    entries of the group, each after the pre-pass and [flatten], put in
    ascending order of their domain names: none is lost and none added. *)
Theorem process_group_sorted (data results : list Dict) :
  process_group data = Ok results →
  ∃ flat,
    map_exc flatten_entry data = Ok flat ∧
    results ≡ₚ flat ∧
    length results = length data ∧
    Sorted domain_le results.
Proof.
  unfold process_group. intros Hrun.
  destruct (map_exc transform_attributes data) as [rs|] eqn:Hrs; [|done].
  cbn [bind] in Hrun.
  destruct (map_exc _ ((λ i, flatten i "." "") <$> rs)) as [keyed|] eqn:Hkeyed; [|done].
  cbn [bind] in Hrun. simplify_eq.
  apply keyed_by_domain in Hkeyed as [Hflat Hkeys].
  apply map_exc_Ok_length in Hrs.
  exists ((λ i, flatten i "." "") <$> rs). split_and!.
  - apply map_exc_Forall2. apply Forall2_fmap_r.
    eapply Forall2_impl; [exact Hrs|]. intros i r. apply flatten_entry_transform.
  - rewrite <- Hflat. by rewrite sorted_by_key_perm.
  - rewrite length_fmap, (Permutation_length (sorted_by_key_perm keyed)).
    rewrite <- (length_fmap snd keyed), Hflat, length_fmap.
    symmetry. by eapply Forall2_length.
  - apply sorted_by_domain; [apply sorted_by_key_sorted|].
    by rewrite sorted_by_key_perm.
Qed.

(** The theorem at a group of two entries in descending order of names. *)
Lemma process_group_sorted_witness :
  ∃ results,
    process_group [entry_named "wilder.b" (zeta_alpha "trait_type");
                   entry_named "wilder.a" (JList [])] = Ok results ∧
    Sorted domain_le results.
Proof.
  eexists. split; [vm_compute; reflexivity|].
  destruct (process_group_sorted
              [entry_named "wilder.b" (zeta_alpha "trait_type");
               entry_named "wilder.a" (JList [])] _ eq_refl)
    as (flat & _ & _ & _ & Hsorted).
  exact Hsorted.
Defined.

(** ** The rows of the CSV file *)

Section Csv.

Lemma csv_loop_started (data : list Dict) (count : nat) (rows : list (list json)) :
  fold_left csv_step data (S count, rows) = (S count, rows ++ ((λ entry, entry.*2) <$> data)).
Proof.
  revert rows. induction data as [|entry data IH]; intros rows.
  - by rewrite app_nil_r.
  - cbn [fold_left]. unfold csv_step at 2. cbn [fst snd].
    rewrite decide_False by done. cbn [fst snd]. rewrite IH.
    by rewrite <- app_assoc.
Qed.

Lemma put_json_to_csv_in_file_rows (first : Dict) (rest : list Dict) :
  put_json_to_csv_in_file (first :: rest) =
  (JStr <$> first.*1) :: ((λ entry, entry.*2) <$> (first :: rest)).
Proof.
  unfold put_json_to_csv_in_file. cbn [fold_left]. unfold csv_step at 2. cbn [fst snd].
  rewrite decide_True by done. cbn [fst snd]. by rewrite csv_loop_started.
Qed.

(** With distinct keys, the value at a position is the value under the
    key at that position. *)
Lemma dict_get_position (d : Dict) (c : nat) key :
  NoDup d.*1 → d.*1 !! c = Some key → d.*2 !! c = dict_get d key.
Proof.
  revert c. induction d as [|[k v] d IH]; intros c Hnodup Hc; [done|].
  cbn in Hnodup. apply NoDup_cons in Hnodup as [Hk Hnodup]. cbn [dict_get].
  destruct c as [|c]; cbn in Hc |- *.
  - simplify_eq. by rewrite String.eqb_refl.
  - destruct (String.eqb_spec k key) as [->|Hne].
    + destruct Hk. by eapply list_elem_of_lookup_2.
    + by apply IH.
Qed.

End Csv.

(** X22: nothing is written for an empty list, not even a header.
    Otherwise the header holds the keys of the first entry and one row
    follows per entry; an entry with the keys of the first, in the same
    order and distinct, has each of its values under the header of its
    key. *)
Theorem put_json_to_csv_in_file_aligned (first entry : Dict) (rest : list Dict)
    (j c : nat) (key : string) :
  (first :: rest) !! j = Some entry →
  entry.*1 = first.*1 → NoDup first.*1 →
  first.*1 !! c = Some key →
  put_json_to_csv_in_file [] = [] ∧
  put_json_to_csv_in_file (first :: rest) !! 0%nat = Some (JStr <$> first.*1) ∧
  length (put_json_to_csv_in_file (first :: rest)) = S (length (first :: rest)) ∧
  ∃ row, put_json_to_csv_in_file (first :: rest) !! S j = Some row ∧
         row !! c = dict_get entry key.
Proof.
  intros Hj Hkeys Hnodup Hc. rewrite put_json_to_csv_in_file_rows.
  split_and!; [done|done|by cbn; rewrite length_fmap|].
  exists entry.*2. split.
  - change ((JStr <$> first.*1) :: ?rows) with ([JStr <$> first.*1] ++ rows).
    rewrite lookup_app_r by (cbn; lia). cbn [length]. rewrite Nat.sub_succ, Nat.sub_0_r.
    by rewrite list_lookup_fmap, Hj.
  - apply dict_get_position; by rewrite Hkeys.
Qed.

(** The theorem at two flat records with the same keys. *)
Lemma put_json_to_csv_in_file_aligned_witness :
  ∃ row,
    put_json_to_csv_in_file
      [[("domain", JStr "wilder.a"); ("size", JNum 1)];
       [("domain", JStr "wilder.b"); ("size", JNum 2)]] !! 2%nat = Some row ∧
    row !! 1%nat = Some (JNum 2).
Proof.
  destruct (put_json_to_csv_in_file_aligned
              [("domain", JStr "wilder.a"); ("size", JNum 1)]
              [("domain", JStr "wilder.b"); ("size", JNum 2)]
              [[("domain", JStr "wilder.b"); ("size", JNum 2)]] 1 1 "size")
    as (_ & _ & _ & row & Hrow & Hcell).
  - reflexivity.
  - reflexivity.
  - cbn. repeat constructor; set_solver.
  - reflexivity.
  - exists row. split; [exact Hrow|]. rewrite Hcell. reflexivity.
Defined.

(** ** More on the attribute pre-pass *)

Section PrePassKeys.

Lemma paired_keys (l : list Dict) (attrs : list (string * json)) :
  Forall2 (λ d tv, dict_get d "trait_type" = Some (JStr tv.1) ∧
                   dict_get d "value" = Some tv.2) l attrs →
  map_exc (λ d, key ←! trait_type_of d; Ok (key, d)) (JDict <$> l) =
    Ok ((λ y, (y.1, JDict y.2.2)) <$> paired attrs l) ∧
  (λ y, (y.1, y.2.1)) <$> paired attrs l = attrs ∧
  Forall (λ y, dict_get y.2.2 "trait_type" = Some (JStr y.1) ∧
               dict_get y.2.2 "value" = Some y.2.1) (paired attrs l).
Proof.
  induction 1 as [|d [t v] l attrs [Ht Hv] _ (IH1 & IH2 & IH3)]; [done|].
  cbn [fst snd] in *. split_and!.
  - cbn [fmap list_fmap map_exc]. change (list_fmap _ _ JDict l) with (JDict <$> l).
    rewrite IH1. unfold trait_type_of, subscript. by rewrite Ht.
  - unfold paired. cbn [zip_with fmap list_fmap fst snd]. f_equal. exact IH2.
  - constructor; [done|exact IH3].
Qed.

Lemma map_exc_collapse_paired (c : list (string * (json * Dict))) :
  Forall (λ y, dict_get y.2.2 "trait_type" = Some (JStr y.1) ∧
               dict_get y.2.2 "value" = Some y.2.1) c →
  map_exc collapse ((λ y, JDict y.2.2) <$> c) =
    Ok (collapsed <$> ((λ y, (y.1, y.2.1)) <$> c)).
Proof.
  induction 1 as [|[t [v d]] c [Ht Hv] _ IH]; [done|].
  cbn [fst snd] in *. cbn [fmap list_fmap map_exc].
  change (list_fmap _ _ ?f c) with (f <$> c). rewrite IH.
  unfold collapse, trait_type_of, subscript. cbn [fst snd]. by rewrite Ht, Hv.
Qed.

End PrePassKeys.

(** X23: of an attribute the pre-pass keeps the trait name and the value
    only: attributes that hold a string under [trait_type] and anything
    under [value] are sorted by trait name and turned into
    [{trait: value}], and their other keys, such as [display_type], are
    dropped. *)
Theorem transform_attribute_list_keeps_trait_and_value
    (l : list Dict) (attrs : list (string * json)) :
  Forall2 (λ d tv, dict_get d "trait_type" = Some (JStr tv.1) ∧
                   dict_get d "value" = Some tv.2) l attrs →
  transform_attribute_list (JList (JDict <$> l)) =
    Ok (JList (collapsed <$> sorted_by_key attrs)).
Proof.
  intros Hl. destruct (paired_keys l attrs Hl) as (Hkeys & Hattrs & Hpaired).
  unfold transform_attribute_list. cbn [iterate bind]. rewrite Hkeys. cbn [bind].
  rewrite (sorted_by_key_fmap (λ y, JDict y.2.2)), <- list_fmap_compose.
  change (snd ∘ _) with (λ y : string * (json * Dict), JDict y.2.2).
  rewrite map_exc_collapse_paired.
  - cbn [bind]. do 3 f_equal.
    by rewrite <- (sorted_by_key_fmap (λ y : string * (json * Dict), y.2.1)), Hattrs.
  - by rewrite sorted_by_key_perm.
Qed.

(** The theorem at an attribute with a display type and a plain one. *)
Lemma transform_attribute_list_keeps_trait_and_value_witness :
  transform_attribute_list (JList [JDict boosted_attribute; JDict plain_attribute]) =
    Ok (JList [JDict [("Engine", JStr "V8")]; JDict [("Speed", JNum 40)]]).
Proof.
  apply (transform_attribute_list_keeps_trait_and_value
           [boosted_attribute; plain_attribute]
           [("Speed", JNum 40); ("Engine", JStr "V8")]).
  repeat constructor.
Defined.

